(** * HPX: sync_wait, block_fork_join_executor and all_reduce

    A shallow embedding of three headers of the HPX runtime,

    - [hpx/execution/algorithms/sync_wait.hpp],
    - [hpx/compute_local/host/block_fork_join_executor.hpp],
    - [hpx/collectives/all_reduce.hpp],

    together with the properties their documentation promises.  Each C++
    function is translated to a Rocq function of the same name; [std::size_t]
    is a 64-bit machine integer whose wrap-around is written out, vectors are
    lists updated by index, exceptions are an explicit result constructor and
    side effects are threaded through small monads. *)

From Stdlib Require Import ZArith NArith List Lia Bool.
From stdpp Require Import base list strings gmap.
Import ListNotations.

(** ** [std::size_t] *)

Module SizeT.
Local Open Scope Z_scope.

Definition bits : Z := 64.
Definition modulus : Z := 2 ^ bits.

(** Unsigned arithmetic is arithmetic modulo [2^64]. *)
Definition wrap (z : Z) : Z := z mod modulus.
Definition add (a b : Z) : Z := wrap (a + b).
Definition mul (a b : Z) : Z := wrap (a * b).
Definition div (a b : Z) : Z := a / b.

(** [std::size_t(-1)], the value the argument types use for "not given". *)
Definition npos : Z := modulus - 1.

Lemma modulus_pos : 0 < modulus.
Proof. reflexivity. Qed.

Lemma wrap_small z : 0 <= z < modulus -> wrap z = z.
Proof. intros H. unfold wrap. apply Z.mod_small. exact H. Qed.

Lemma wrap_range z : 0 <= wrap z < modulus.
Proof. unfold wrap. apply Z.mod_pos_bound. exact modulus_pos. Qed.
End SizeT.

(** ** sync_wait: the receiver's shared state *)

Module SyncWait.

Inductive Sync_wait_type := single | variant.

Section Receiver.
(** [Error] stands for the sender's typed errors, [ExceptionPtr] for the
    identity of a captured exception ([std::exception_ptr]). *)
Context {Error ExceptionPtr : Type}.

(** [result_type]: the alias names the trait class
    [std::conditional<Type == Sync_wait_type::single, ..., ...>] itself, not
    its member [::type].  It is an empty class, the same whatever values the
    sender sends. *)
Inductive result_type := conditional_trait.

(** [error_type]: [std::exception_ptr] prepended to the sender's errors. *)
Inductive error_type :=
| captured (ep : ExceptionPtr)
| typed (e : Error).

(** [hpx::variant<hpx::monostate, error_type, result_type> value]. *)
Inductive value_type :=
| monostate
| holds_error (e : error_type)
| holds_result (r : result_type).

Record shared_state := mk_shared_state
  { set_called : bool; value : value_type }.

(** [state_type state{}]. *)
Definition initial_state : shared_state :=
  {| set_called := false; value := monostate |}.

(** What leaves a call by an exception. *)
Inductive thrown :=
| bad_variant_access
| rethrown (ep : ExceptionPtr)
| thrown_error (e : Error).

Inductive outcome (A : Type) :=
| returns (a : A)
| throws (t : thrown).
Arguments returns {A} a.
Arguments throws {A} t.

Definition bind {A B} (m : outcome A) (k : A -> outcome B) : outcome B :=
  match m with
  | returns a => k a
  | throws t => throws t
  end.

(** [hpx::get<result_type>(value)]: [std::get] on a variant that holds
    another alternative throws [bad_variant_access]. *)
Definition get_result (v : value_type) : outcome result_type :=
  match v with
  | holds_result r => returns r
  | _ => throws bad_variant_access
  end.

(** [hpx::get<error_type>(value)]. *)
Definition get_error (v : value_type) : outcome error_type :=
  match v with
  | holds_error e => returns e
  | _ => throws bad_variant_access
  end.

(** [sync_wait_error_visitor]: [std::rethrow_exception(ep)] for a
    captured exception, [throw error] for any other error. *)
Definition sync_wait_error_visitor {A} (e : error_type) : outcome A :=
  match e with
  | captured ep => throws (rethrown ep)
  | typed err => throws (thrown_error err)
  end.

(** [shared_state::get_value] for [Type == Sync_wait_type::variant], the
    instantiation that is well-formed: it starts with
    [return hpx::optional(hpx::get<result_type>(HPX_MOVE(value)))], so the
    statements that follow in the source (the [holds_alternative<error_type>]
    test and the empty optional) are never reached.  For
    [Type == Sync_wait_type::single] the first [return] applies
    [hpx::get<0>] to the trait class and its type differs from that of the
    last [return]: that instantiation does not compile and has no
    embedding. *)
Definition get_value (st : shared_state) : outcome (option result_type) :=
  bind (get_result (value st)) (fun r => returns (Some r)).

(** What the comments of the header describe (the text after the first
    return): values give a present optional, an error is re-raised through
    the visitor, a stop gives an empty optional. *)
Definition documented_get_value (st : shared_state)
  : outcome (option result_type) :=
  match value st with
  | holds_result r => returns (Some r)
  | holds_error e => sync_wait_error_visitor e
  | monostate => returns None
  end.

(** The completion signals of [sync_wait_receiver] that instantiate:
    [set_error] and [set_stopped].  ([set_value] would emplace
    [result_type] from the forwarded tuple; the trait class has no such
    constructor, so its body is ill-formed for every sender and no signal
    stores a result.) *)
Definition signal_set_called (st : shared_state) : shared_state :=
  {| set_called := true; value := value st |}.

Definition set_error (e : error_type) (st : shared_state) : shared_state :=
  signal_set_called {| set_called := set_called st; value := holds_error e |}.

Definition set_stopped (st : shared_state) : shared_state :=
  signal_set_called st.

(** ** Properties *)

Lemma set_called_after_signal st : set_called (signal_set_called st) = true.
Proof. reflexivity. Qed.

(** [get_value] returns only from a state that holds a result. *)
Lemma get_value_returns_inv st o :
  get_value st = returns o -> exists r, value st = holds_result r.
Proof.
  unfold get_value. destruct (value st) as [| e | r]; simpl.
  - discriminate.
  - discriminate.
  - intros _. exists r. reflexivity.
Qed.

(** C4 (the code departs from its documentation): in variant mode, once a
    stopped signal or an error signal has been recorded, [get_value]
    reaches [hpx::get<result_type>] first and leaves with
    [bad_variant_access]; it neither returns the empty optional nor
    re-raises the stored error, as the text after the first return and the
    comments of the header would have it. *)
Theorem get_value_stopped_or_error_bad_variant_access :
  get_value (set_stopped initial_state) = throws bad_variant_access
  /\ documented_get_value (set_stopped initial_state) = returns None
  /\ forall e : error_type,
       get_value (set_error e initial_state) = throws bad_variant_access
       /\ documented_get_value (set_error e initial_state)
          = sync_wait_error_visitor e
       /\ documented_get_value (set_error e initial_state)
          <> get_value (set_error e initial_state).
Proof.
  split; [reflexivity |]. split; [reflexivity |].
  intros e. split; [reflexivity |]. split; [reflexivity |].
  destruct e; discriminate.
Qed.

End Receiver.
Arguments returns {Error ExceptionPtr A} a.
Arguments throws {Error ExceptionPtr A} t.

(** A sender that completes with a captured exception: the visitor would
    rethrow it, [get_value] leaves with [bad_variant_access]. *)
Example get_value_captured_exception :
  get_value (Error := unit) (set_error (captured 7%nat) initial_state)
  = throws bad_variant_access
  /\ documented_get_value (Error := unit)
       (set_error (captured 7%nat) initial_state)
     = throws (rethrown 7%nat).
Proof. split; reflexivity. Qed.

End SyncWait.

(** ** Exceptions, results and futures shared by the executor and the
    collective *)

Module Hpx.

(** An exception object: the [hpx::bad_parameter] error raised through
    [HPX_THROW_EXCEPTION] / [HPX_GET_EXCEPTION] with the throwing function and
    its message, a failed [HPX_ASSERT], or whatever user code raised, known
    by its identity (the [std::exception_ptr] that captures it). *)
Inductive exception :=
| bad_parameter (function message : string)
| assertion_failure (expression : string)
| user_exception (ep : nat).

(** A call either returns or leaves by an exception. *)
Inductive outcome (A : Type) :=
| returns (a : A)
| throws (e : exception).
Arguments returns {A} a.
Arguments throws {A} e.

(** [hpx::future<A>]: ready with a value, ready with an exception, or not
    ready yet. *)
Inductive future (A : Type) :=
| make_ready_future (a : A)
| make_exceptional_future (e : exception)
| pending_future.
Arguments make_ready_future {A} a.
Arguments make_exceptional_future {A} e.
Arguments pending_future {A}.

(** Code that runs on a mutable world [W] and may throw. *)
Definition M (W A : Type) : Type := W -> outcome A * W.

Definition ret {W A} (a : A) : M W A := fun w => (returns a, w).

Definition bind {W A B} (m : M W A) (k : A -> M W B) : M W B :=
  fun w =>
    match m w with
    | (returns a, w') => k a w'
    | (throws e, w') => (throws e, w')
    end.

Definition throw {W A} (e : exception) : M W A := fun w => (throws e, w).

(** [hpx::detail::try_catch_exception_ptr(t, c)]: run [t]; if it throws,
    hand the captured exception to [c]. *)
Definition try_catch_exception_ptr {W A}
    (t : M W A) (c : exception -> M W A) : M W A :=
  fun w =>
    match t w with
    | (returns a, w') => (returns a, w')
    | (throws ep, w') => c ep w'
    end.

End Hpx.

Declare Scope hpx_scope.
Delimit Scope hpx_scope with hpx.
Notation "x <- m ;; k" := (Hpx.bind m (fun x => k))
  (at level 100, m at next level, right associativity) : hpx_scope.
Notation "m ;; k" := (Hpx.bind m (fun _ => k))
  (at level 100, right associativity) : hpx_scope.

(** ** Core masks *)

Module CpuMask.
Local Open Scope N_scope.

(** Modelled from the spec: [hpx/topology/cpu_mask.hpp] is not part of the
    sources at hand.  "Core mask: bitset over hardware execution units."  A
    mask is the natural number whose binary digits are the bits of the set;
    [mask_type mask(n)] is the bitset of [n] bits, all clear. *)
Definition mask_type : Type := N.

Definition make_mask (size : N) : mask_type := 0.

Definition test (mask : mask_type) (idx : N) : bool := N.testbit mask idx.

Definition set (mask : mask_type) (idx : N) : mask_type := N.setbit mask idx.

Fixpoint pos_ctz (p : positive) : N :=
  match p with
  | xO q => N.succ (pos_ctz q)
  | _ => 0
  end.

(** The lowest-numbered core of a mask; on an empty mask there is none and
    the answer is [std::size_t(-1)]. *)
Definition find_first (mask : mask_type) : N :=
  match mask with
  | N0 => Z.to_N SizeT.npos
  | Npos p => pos_ctz p
  end.

(** [c] is the lowest-numbered core of [mask]. *)
Definition lowest_core (mask : mask_type) (c : N) : Prop :=
  test mask c = true /\ forall c', c' < c -> test mask c' = false.

Lemma test_make_mask size idx : test (make_mask size) idx = false.
Proof. unfold test, make_mask. apply N.bits_0. Qed.

Lemma test_set mask i j : test (set mask i) j = (i =? j) || test mask j.
Proof. unfold test, set. apply N.setbit_eqb. Qed.

Lemma pos_ctz_lowest p : lowest_core (Npos p) (pos_ctz p).
Proof.
  unfold lowest_core, test.
  induction p as [q IH | q IH |]; simpl pos_ctz.
  - split; [reflexivity | intros c' Hc'; lia].
  - destruct IH as [IH1 IH2]. split.
    + change (N.pos q~0) with (2 * N.pos q).
      rewrite N.testbit_even_succ by lia. exact IH1.
    + intros c' Hc'. change (N.pos q~0) with (2 * N.pos q).
      destruct (N.eq_dec c' 0) as [-> | Hne].
      * apply N.testbit_even_0.
      * replace c' with (N.succ (N.pred c')) by lia.
        rewrite N.testbit_even_succ by lia. apply IH2. lia.
  - split; [reflexivity | intros c' Hc'; lia].
Qed.

Lemma find_first_lowest mask :
  mask <> 0 -> lowest_core mask (find_first mask).
Proof.
  destruct mask as [| p]; [congruence |]. intros _. apply pos_ctz_lowest.
Qed.

End CpuMask.

(** ** block_fork_join_executor *)

Module BlockForkJoin.
Import Hpx CpuMask.

(** [compute::host::target]: [t.native_handle().get_device()] is its mask. *)
Record target := Target { get_device : mask_type }.

(** [fork_join_executor::loop_schedule]. *)
Inductive loop_schedule := static_ | dynamic.

Definition bad_parameter_one_target : exception :=
  bad_parameter "block_fork_join_executor::cores_for_targets"
    "The thread used to initialize the block_fork_join_executor should be part of the given target".

Definition bad_parameter_some_target : exception :=
  bad_parameter "block_fork_join_executor::cores_for_targets"
    "The thread used to initialize the block_fork_join_executor should be part of at least one of the given targets".

(** One turn of the loop of [cores_for_targets] over
    [(mask, this_thread_is_represented)]. *)
Definition cores_loop_body (this_pu : N)
    (st : mask_type * bool) (t : target) : mask_type * bool :=
  let '(mask, this_thread_is_represented) := st in
  let target_mask := get_device t in
  if negb this_thread_is_represented && test target_mask this_pu
  then (set mask this_pu, true)
  else (set mask (find_first target_mask), this_thread_is_represented).

(** [cores_for_targets].  [this_pu] is the processing unit of the calling
    worker thread, [rp.get_pu_num(hpx::get_worker_thread_num())]. *)
Definition cores_for_targets (hardware_concurrency this_pu : N)
    (targets : list target) : outcome mask_type :=
  match targets with
  | [t] =>
      let target_mask := get_device t in
      if negb (test target_mask this_pu)
      then throws bad_parameter_one_target
      else returns target_mask
  | _ =>
      let '(mask, this_thread_is_represented) :=
        fold_left (cores_loop_body this_pu) targets
          (make_mask hardware_concurrency, false) in
      if negb this_thread_is_represented
      then throws bad_parameter_some_target
      else returns mask
  end.

(** [hpx::util::detail::make_counting_shape(n)]: the indices [0 .. n-1]. *)
Definition make_counting_shape (n : nat) : list Z := map Z.of_nat (seq 0 n).

(** [make_iterator_range(std::next(begin, b), std::next(begin, e))]: the
    elements at positions [b <= i < e].  The source forms the iterator pair
    without a check; it is a range only for [b <= e <= size].  Outside of
    that (bounds that wrapped) the pair is invalid, and the empty list this
    function answers with stands for nothing in the source: no statement
    about the elements of a range is made there. *)
Definition make_iterator_range {Ix} (shape : list Ix) (b e : Z) : list Ix :=
  take (Z.to_nat e - Z.to_nat b) (drop (Z.to_nat b) shape).

(** The bounds [outer_func] computes, in [std::size_t] arithmetic. *)
Definition part_begin (index size num_targets : Z) : Z :=
  SizeT.div (SizeT.mul index size) num_targets.

Definition part_end (index size num_targets : Z) : Z :=
  SizeT.div (SizeT.mul (SizeT.add index 1) size) num_targets.

Section Executor.
(** [threads::thread_priority] and [threads::thread_stacksize] are only
    passed on. *)
Context {thread_priority thread_stacksize : Type}.

(** A single-level [fork_join_executor]: not yet initialised
    ([init_mode::no_init]) or built from (mask, priority, stack size,
    schedule, yield delay in nanoseconds). *)
Inductive fork_join_executor :=
| no_init
| make_fork_join_executor (mask : mask_type) (priority : thread_priority)
    (stacksize : thread_stacksize) (schedule : loop_schedule)
    (yield_delay : Z).

Definition schedule_of (e : fork_join_executor) : option loop_schedule :=
  match e with
  | no_init => None
  | make_fork_join_executor _ _ _ schedule _ => Some schedule
  end.

Definition mask_of (e : fork_join_executor) : option mask_type :=
  match e with
  | no_init => None
  | make_fork_join_executor mask _ _ _ _ => Some mask
  end.

(** Modelled from the spec: [fork_join_executor::bulk_sync_execute] lives in
    [hpx/executors/fork_join_executor.hpp], which is not part of the sources
    at hand.  "Bulk execution: invoking a function once per element of an
    index shape across worker threads, with a barrier at completion";
    "exceptions from f propagate out of the synchronous form".  The
    invocations are taken in shape order, and an exception ends the call. *)
Fixpoint fork_join_bulk_sync_execute {W Ix} (exec : fork_join_executor)
    (f : Ix -> M W unit) (shape : list Ix) : M W unit :=
  match shape with
  | [] => ret tt
  | x :: rest => (f x ;; fork_join_bulk_sync_execute exec f rest)%hpx
  end.

Record block_fork_join_executor := BlockForkJoinExecutor
  { exec_ : fork_join_executor;
    block_execs_ : list fork_join_executor }.

(** [init_f]: [block_execs_[index] = fork_join_executor(targets[index]
    .native_handle().get_device(), priority, stacksize, schedule,
    yield_delay)], on the vector under construction. *)
Definition init_f (targets : list target) (priority : thread_priority)
    (stacksize : thread_stacksize) (schedule : loop_schedule)
    (yield_delay : Z) (index : Z) : M (list fork_join_executor) unit :=
  fun block_execs =>
    match targets !! Z.to_nat index with
    | Some t =>
        (returns tt,
         <[Z.to_nat index :=
             make_fork_join_executor (get_device t) priority stacksize
               schedule yield_delay]> block_execs)
    | None => (returns tt, block_execs)
    end.

(** The constructor taking the targets. *)
Definition make_block_fork_join_executor (hardware_concurrency this_pu : N)
    (targets : list target) (priority : thread_priority)
    (stacksize : thread_stacksize) (schedule : loop_schedule)
    (yield_delay : Z) : outcome block_fork_join_executor :=
  match cores_for_targets hardware_concurrency this_pu targets with
  | throws e => throws e
  | returns mask =>
      let exec :=
        make_fork_join_executor mask priority stacksize
          (if (length targets =? 1)%nat then schedule else static_)
          yield_delay in
      if (1 <? length targets)%nat then
        let reserved := replicate (length targets) no_init in
        match
          fork_join_bulk_sync_execute exec
            (init_f targets priority stacksize schedule yield_delay)
            (make_counting_shape (length targets)) reserved
        with
        | (returns _, block_execs) =>
            returns {| exec_ := exec; block_execs_ := block_execs |}
        | (throws e, _) => throws e
        end
      else returns {| exec_ := exec; block_execs_ := [] |}
  end.

(** [outer_func], run for every [index] of the outer shape. *)
Definition outer_func {W Ix} (self : block_fork_join_executor)
    (num_targets : Z) (f : Ix -> M W unit) (shape : list Ix) (index : Z)
  : M W unit :=
  let size := Z.of_nat (length shape) in
  let inner_shape :=
    make_iterator_range shape
      (part_begin index size num_targets)
      (part_end index size num_targets) in
  fork_join_bulk_sync_execute
    (nth (Z.to_nat index) (block_execs_ self) no_init) f inner_shape.

Definition bulk_sync_execute {W Ix} (self : block_fork_join_executor)
    (f : Ix -> M W unit) (shape : list Ix) : M W unit :=
  let num_targets := Z.of_nat (length (block_execs_ self)) in
  if (num_targets =? 0)%Z
  then fork_join_bulk_sync_execute (exec_ self) f shape
  else
    fork_join_bulk_sync_execute (exec_ self)
      (outer_func self num_targets f shape)
      (make_counting_shape (length (block_execs_ self))).

Definition bulk_async_execute {W Ix} (self : block_fork_join_executor)
    (f : Ix -> M W unit) (shape : list Ix) : M W (future unit) :=
  try_catch_exception_ptr
    (bulk_sync_execute self f shape ;; ret (make_ready_future tt))%hpx
    (fun ep => ret (make_exceptional_future ep)).

End Executor.
Arguments fork_join_executor : clear implicits.
Arguments block_fork_join_executor : clear implicits.

(** *** The partition of the index shape *)

Section Partition.
Local Open Scope Z_scope.

Lemma part_begin_exact index size num_targets :
  0 <= index -> 0 <= size -> index * size < SizeT.modulus ->
  part_begin index size num_targets = index * size / num_targets.
Proof.
  intros Hi Hs Hw. unfold part_begin, SizeT.div, SizeT.mul.
  rewrite SizeT.wrap_small by nia. reflexivity.
Qed.

Lemma part_end_exact index size num_targets :
  0 <= index -> 1 <= size -> (index + 1) * size < SizeT.modulus ->
  part_end index size num_targets = (index + 1) * size / num_targets.
Proof.
  intros Hi Hs Hw. unfold part_end, SizeT.div, SizeT.mul, SizeT.add.
  rewrite (SizeT.wrap_small (index + 1)) by nia.
  rewrite SizeT.wrap_small by nia. reflexivity.
Qed.

(** Without wrap-around the end of a part is the begin of the next. *)
Lemma part_end_is_next_begin index size num_targets :
  0 <= index -> 1 <= size -> (index + 1) * size < SizeT.modulus ->
  part_end index size num_targets = part_begin (index + 1) size num_targets.
Proof.
  intros Hi Hs Hw. rewrite part_end_exact, part_begin_exact by lia.
  reflexivity.
Qed.

Lemma floor_step i size N :
  0 <= i -> 0 <= size -> 0 < N ->
  size / N <= (i + 1) * size / N - i * size / N <= size / N + 1.
Proof.
  intros Hi Hs HN.
  pose proof (Z.div_mod size N ltac:(lia)) as E1.
  pose proof (Z.mod_pos_bound size N HN) as B1.
  pose proof (Z.div_mod (i * size) N ltac:(lia)) as E2.
  pose proof (Z.mod_pos_bound (i * size) N HN) as B2.
  pose proof (Z.div_mod ((i + 1) * size) N ltac:(lia)) as E3.
  pose proof (Z.mod_pos_bound ((i + 1) * size) N HN) as B3.
  nia.
Qed.

Lemma floor_mono i i' size N :
  0 <= i <= i' -> 0 <= size -> 0 < N -> i * size / N <= i' * size / N.
Proof.
  intros Hi Hs HN. apply Z.div_le_mono; [lia | nia].
Qed.

Lemma floor_owner j size N :
  0 <= j < size -> 0 < N ->
  let i := ((j + 1) * N - 1) / size in
  0 <= i < N /\ i * size / N <= j < (i + 1) * size / N.
Proof.
  intros Hj HN i.
  assert (Hs : 0 < size) by lia.
  pose proof (Z.div_mod ((j + 1) * N - 1) size ltac:(lia)) as E1.
  pose proof (Z.mod_pos_bound ((j + 1) * N - 1) size Hs) as B1.
  fold i in E1.
  assert (Hi : 0 <= i < N).
  { split.
    - apply Z.div_pos; nia.
    - apply Z.div_lt_upper_bound; nia. }
  split; [exact Hi |]. split.
  - assert (i * size / N < j + 1)
      by (apply Z.div_lt_upper_bound; [lia | nia]).
    lia.
  - assert (j + 1 <= (i + 1) * size / N)
      by (apply Z.div_le_lower_bound; [lia | nia]).
    lia.
Qed.

End Partition.

(** *** Bulk execution *)

Section Bulk.
Context {thread_priority thread_stacksize : Type}.
Local Abbreviation fj_executor :=
  (fork_join_executor thread_priority thread_stacksize).
Local Abbreviation bfj_executor :=
  (block_fork_join_executor thread_priority thread_stacksize).

Lemma bind_ret_tt {W} (m : M W unit) w : (m ;; ret tt)%hpx w = m w.
Proof.
  unfold Hpx.bind, ret. destruct (m w) as [[[] | e] w']; reflexivity.
Qed.

(** Which single-level executor runs a bulk call decides where the work is
    placed, not which invocations are made. *)
Lemma bulk_exec_irrelevant {W Ix} (e e' : fj_executor) (f : Ix -> M W unit)
    shape w :
  fork_join_bulk_sync_execute e f shape w
  = fork_join_bulk_sync_execute e' f shape w.
Proof.
  revert w. induction shape as [| x rest IH]; intros w; simpl.
  - reflexivity.
  - unfold Hpx.bind. destruct (f x w) as [[u | ex] w'];
      [apply IH | reflexivity].
Qed.

Lemma bulk_app {W Ix} (e : fj_executor) (f : Ix -> M W unit) l1 l2 w :
  fork_join_bulk_sync_execute e f (l1 ++ l2) w
  = (fork_join_bulk_sync_execute e f l1 ;;
     fork_join_bulk_sync_execute e f l2)%hpx w.
Proof.
  revert w. induction l1 as [| x rest IH]; intros w; simpl.
  - reflexivity.
  - unfold Hpx.bind. destruct (f x w) as [[u | ex] w'].
    + rewrite IH. reflexivity.
    + reflexivity.
Qed.

Lemma make_counting_shape_S n :
  make_counting_shape (S n) = make_counting_shape n ++ [Z.of_nat n].
Proof.
  unfold make_counting_shape. rewrite seq_S, map_app. reflexivity.
Qed.

(** The first [k] parts, run one after the other, are the first
    [k * size / N] elements of the shape. *)
Lemma outer_prefix {W Ix} (self : bfj_executor) (f : Ix -> M W unit)
    (shape : list Ix) (k : nat) :
  let N := Z.of_nat (length (block_execs_ self)) in
  let size := Z.of_nat (length shape) in
  (0 < N)%Z -> (1 <= size)%Z -> (N * size < SizeT.modulus)%Z ->
  (k <= length (block_execs_ self))%nat ->
  forall w,
    fork_join_bulk_sync_execute (exec_ self) (outer_func self N f shape)
      (make_counting_shape k) w
    = fork_join_bulk_sync_execute (exec_ self) f
        (take (Z.to_nat (Z.of_nat k * size / N)) shape) w.
Proof.
  intros N size HN Hs Hw. induction k as [| k IH]; intros Hk w.
  - reflexivity.
  - rewrite make_counting_shape_S, bulk_app.
    assert (Hle : (Z.of_nat k * size / N <= (Z.of_nat k + 1) * size / N)%Z)
      by (apply floor_mono; lia).
    assert (H0 : (0 <= Z.of_nat k * size / N)%Z)
      by (apply Z.div_pos; nia).
    replace (Z.to_nat (Z.of_nat (S k) * size / N))
      with (Z.to_nat (Z.of_nat k * size / N)
            + (Z.to_nat ((Z.of_nat k + 1) * size / N)
               - Z.to_nat (Z.of_nat k * size / N)))%nat
      by (rewrite Nat2Z.inj_succ; unfold Z.succ; lia).
    rewrite <- take_take_drop, bulk_app.
    unfold Hpx.bind. rewrite IH by lia.
    destruct (fork_join_bulk_sync_execute (exec_ self) f
                (take (Z.to_nat (Z.of_nat k * size / N)) shape) w)
      as [[u | ex] w']; [| reflexivity].
    simpl fork_join_bulk_sync_execute at 1. rewrite bind_ret_tt.
    unfold outer_func, make_iterator_range. fold size.
    rewrite part_begin_exact, part_end_exact by nia.
    apply bulk_exec_irrelevant.
Qed.

(** With [N > 0] sub-executors and no wrap-around in the bounds, the two
    level execution makes the invocations of a single bulk call over the
    whole shape. *)
Lemma bulk_sync_execute_flat {W Ix} (self : bfj_executor) (f : Ix -> M W unit)
    (shape : list Ix) w :
  let N := Z.of_nat (length (block_execs_ self)) in
  let size := Z.of_nat (length shape) in
  (1 <= size)%Z -> (N * size < SizeT.modulus)%Z ->
  bulk_sync_execute self f shape w
  = fork_join_bulk_sync_execute (exec_ self) f shape w.
Proof.
  intros N size Hs Hw. unfold bulk_sync_execute. fold N.
  destruct (Z.eqb_spec N 0) as [E | E]; [reflexivity |].
  assert (HN : (0 < N)%Z) by lia.
  rewrite (outer_prefix self f shape (length (block_execs_ self)))
    by (fold N; fold size; lia).
  fold N. fold size.
  rewrite take_ge; [reflexivity |].
  rewrite Z.mul_comm, Z.div_mul by lia. lia.
Qed.

(** A function that only records the index it is called with. *)
Definition record_call {Ix} (x : Ix) : M (list Ix) unit :=
  fun calls => (returns tt, calls ++ [x]).

Lemma bulk_record_call {Ix} (e : fj_executor) (shape calls : list Ix) :
  fork_join_bulk_sync_execute e record_call shape calls
  = (returns tt, calls ++ shape).
Proof.
  revert calls. induction shape as [| x rest IH]; intros calls; simpl.
  - rewrite app_nil_r. reflexivity.
  - unfold Hpx.bind, record_call at 1. rewrite IH, <- app_assoc. reflexivity.
Qed.

(** [j] lies in one of the [N] parts of a shape of [size] elements. *)
Definition covered (size N j : Z) : Prop :=
  exists i : Z,
    (0 <= i < N)%Z /\ (part_begin i size N <= j < part_end i size N)%Z.

(** C3 (as the code has it): for a shape of [size >= 1] elements and
    [N >= 1] targets whose product [N * size] fits [std::size_t], the parts
    [part_begin i, part_end i) for [0 <= i < N] start at 0, end at [size],
    follow each other without gap or overlap, have between [size / N] and
    [size / N + 1] elements, and every index of the shape lies in exactly
    one of them; hence [bulk_sync_execute] over [N > 1] sub-executors makes
    the invocations of one bulk call over the whole shape: [f] is called
    once for each index. *)
Theorem partition_covers_shape_once (size N : Z) :
  (1 <= size)%Z -> (1 <= N)%Z -> (N * size < SizeT.modulus)%Z ->
  (part_begin 0 size N = 0 /\ part_end (N - 1) size N = size)%Z
  /\ (forall i : Z, (0 <= i < N)%Z ->
        (part_begin i size N <= part_end i size N)%Z
        /\ (size / N <= part_end i size N - part_begin i size N
            <= size / N + 1)%Z
        /\ ((i + 1 < N)%Z ->
            part_end i size N = part_begin (i + 1) size N))
  /\ (forall j : Z, (0 <= j < size)%Z ->
        exists i : Z,
          ((0 <= i < N)%Z
           /\ (part_begin i size N <= j < part_end i size N)%Z)
          /\ forall i' : Z,
               (0 <= i' < N)%Z ->
               (part_begin i' size N <= j < part_end i' size N)%Z ->
               i' = i)
  /\ (forall (Ix : Type) (self : bfj_executor) (shape : list Ix),
        Z.of_nat (length (block_execs_ self)) = N -> (1 < N)%Z ->
        Z.of_nat (length shape) = size ->
        (forall (W : Type) (f : Ix -> M W unit) (w : W),
            bulk_sync_execute self f shape w
            = fork_join_bulk_sync_execute (exec_ self) f shape w)
        /\ bulk_sync_execute self record_call shape [] = (returns tt, shape)).
Proof.
  intros Hs HN Hw.
  assert (Hb : forall i : Z, (0 <= i < N)%Z ->
                 part_begin i size N = (i * size / N)%Z)
    by (intros i Hi; apply part_begin_exact; nia).
  assert (He : forall i : Z, (0 <= i < N)%Z ->
                 part_end i size N = ((i + 1) * size / N)%Z)
    by (intros i Hi; apply part_end_exact; nia).
  split; [| split; [| split]].
  - rewrite Hb, He by lia. split.
    + apply Z.div_0_l. lia.
    + replace (N - 1 + 1)%Z with N by lia.
      rewrite Z.mul_comm. apply Z.div_mul. lia.
  - intros i Hi. rewrite Hb, He by lia.
    pose proof (floor_step i size N ltac:(lia) ltac:(lia) ltac:(lia)).
    pose proof (Z.div_pos size N ltac:(lia) ltac:(lia)).
    split; [lia |]. split; [lia |].
    intros Hi'. rewrite Hb by lia. reflexivity.
  - intros j Hj.
    destruct (floor_owner j size N Hj ltac:(lia)) as [Hi Hin].
    exists (((j + 1) * N - 1) / size)%Z. split.
    + split; [exact Hi |]. rewrite Hb, He by exact Hi. exact Hin.
    + intros i' Hi' Hin'. rewrite Hb, He in Hin' by exact Hi'.
      set (i := (((j + 1) * N - 1) / size)%Z) in *.
      destruct (Z.lt_trichotomy i' i) as [Hlt | [Heq | Hgt]].
      * pose proof (floor_mono (i' + 1) i size N
                      ltac:(lia) ltac:(lia) ltac:(lia)). lia.
      * exact Heq.
      * pose proof (floor_mono (i + 1) i' size N
                      ltac:(lia) ltac:(lia) ltac:(lia)). lia.
  - intros Ix self shape HlenN HN1 Hlen.
    assert (Hflat : forall (W : Type) (f : Ix -> M W unit) (w : W),
               bulk_sync_execute self f shape w
               = fork_join_bulk_sync_execute (exec_ self) f shape w).
    { intros W f w. apply bulk_sync_execute_flat; rewrite ?HlenN, ?Hlen; lia. }
    split; [exact Hflat |].
    rewrite Hflat. apply bulk_record_call.
Qed.

End Bulk.

(** [bulk_sync_execute] of a counter over the indices [0 .. 9] with four
    sub-executors calls each index once. *)
Example bulk_sync_execute_ten_by_four :
  bulk_sync_execute
    {| exec_ := make_fork_join_executor 85%N tt tt static_ 1000000;
       block_execs_ :=
         map (fun m => make_fork_join_executor m tt tt static_ 1000000)
           [3%N; 12%N; 48%N; 192%N] |}
    record_call (make_counting_shape 10) []
  = (returns tt, [0; 1; 2; 3; 4; 5; 6; 7; 8; 9]%Z).
Proof. vm_compute. reflexivity. Qed.

Lemma partition_covers_shape_once_witness :
  (part_begin 0 10 4 = 0 /\ part_end (4 - 1) 10 4 = 10)%Z.
Proof.
  refine (proj1 (@partition_covers_shape_once unit unit 10 4 _ _ _)).
  - lia.
  - lia.
  - reflexivity.
Defined.

(** C3 (counterexample to the statement without the bound on [N * size]):
    a shape of [2^62] elements over four targets.  [(3 + 1) * 2^62] wraps to
    0, so the last part is [3 * 2^60, 0) and the index [3 * 2^60] lies in no
    part. *)
Lemma partition_wraps_for_huge_shape :
  (1 <= 2 ^ 62)%Z /\ (1 <= 4)%Z
  /\ part_begin 3 (2 ^ 62) 4 = (3 * 2 ^ 60)%Z
  /\ part_end 3 (2 ^ 62) 4 = 0%Z
  /\ (0 <= 3 * 2 ^ 60 < 2 ^ 62)%Z
  /\ ~ covered (2 ^ 62) 4 (3 * 2 ^ 60).
Proof.
  split; [lia |]. split; [lia |].
  split; [reflexivity |]. split; [reflexivity |]. split; [lia |].
  intros [i [Hi Hin]].
  assert (Hcase : i = 0%Z \/ i = 1%Z \/ i = 2%Z \/ i = 3%Z) by lia.
  destruct Hcase as [-> | [-> | [-> | ->]]]; vm_compute in Hin;
    destruct Hin as [Hlo Hhi];
    first [discriminate Hhi | apply Hlo; reflexivity].
Qed.

(** *** Placement: [cores_for_targets] *)

(** The mask after giving every target of the list its lowest core. *)
Definition set_lowest (mask : mask_type) (targets : list target) : mask_type :=
  fold_left (fun m t => set m (find_first (get_device t))) targets mask.

Lemma loop_represented this_pu targets mask :
  fold_left (cores_loop_body this_pu) targets (mask, true)
  = (set_lowest mask targets, true).
Proof.
  revert mask. induction targets as [| t ts IH]; intros mask.
  - reflexivity.
  - simpl. apply IH.
Qed.

Lemma loop_not_covered this_pu targets mask :
  Forall (fun t => test (get_device t) this_pu = false) targets ->
  fold_left (cores_loop_body this_pu) targets (mask, false)
  = (set_lowest mask targets, false).
Proof.
  intros H. revert mask. induction H as [| t ts Ht _ IH]; intros mask.
  - reflexivity.
  - simpl. rewrite Ht. simpl. apply IH.
Qed.

Lemma loop_first_covered this_pu pre t post mask :
  Forall (fun u => test (get_device u) this_pu = false) pre ->
  test (get_device t) this_pu = true ->
  fold_left (cores_loop_body this_pu) (pre ++ t :: post) (mask, false)
  = (set_lowest (set (set_lowest mask pre) this_pu) post, true).
Proof.
  intros Hpre Ht. rewrite fold_left_app, loop_not_covered by exact Hpre.
  simpl. rewrite Ht. simpl. apply loop_represented.
Qed.

Lemma test_set_lowest mask targets c :
  test (set_lowest mask targets) c = true
  <-> test mask c = true
      \/ exists u, u ∈ targets /\ c = find_first (get_device u).
Proof.
  revert mask. induction targets as [| t ts IH]; intros mask.
  - simpl. split; [tauto |]. intros [H | [u [Hu _]]]; [exact H |].
    inversion Hu.
  - unfold set_lowest in *. simpl. rewrite IH, test_set.
    rewrite orb_true_iff, N.eqb_eq. split.
    + intros [[H | H] | [u [Hu Hc]]].
      * right. exists t. split; [apply elem_of_cons; tauto | congruence].
      * left. exact H.
      * right. exists u. split; [apply elem_of_cons; tauto | exact Hc].
    + intros [H | [u [Hu Hc]]]; [tauto |].
      apply elem_of_cons in Hu. destruct Hu as [-> | Hu].
      * left. left. congruence.
      * right. exists u. tauto.
Qed.

(** The first target whose mask holds the caller's core. *)
Lemma first_covering_target this_pu targets :
  Exists (fun t => test (get_device t) this_pu = true) targets ->
  exists pre t post,
    targets = pre ++ t :: post
    /\ Forall (fun u => test (get_device u) this_pu = false) pre
    /\ test (get_device t) this_pu = true.
Proof.
  induction targets as [| a ts IH]; intros H.
  - inversion H.
  - destruct (test (get_device a) this_pu) eqn:Ha.
    + exists [], a, ts. repeat split; [constructor | exact Ha].
    + assert (Hts : Exists (fun t => test (get_device t) this_pu = true) ts).
      { inversion H as [? ? Hhd | ? ? Htl]; subst; [congruence | exact Htl]. }
      destruct (IH Hts) as (pre & t & post & -> & Hpre & Ht).
      exists (a :: pre), t, post. repeat split;
        [constructor; assumption | exact Ht].
Qed.

Lemma cores_for_targets_not_covered hardware_concurrency this_pu targets :
  Forall (fun t => test (get_device t) this_pu = false) targets ->
  cores_for_targets hardware_concurrency this_pu targets
  = throws (if (length targets =? 1)%nat
            then bad_parameter_one_target
            else bad_parameter_some_target).
Proof.
  intros H. destruct targets as [| t [| t' ts]].
  - reflexivity.
  - simpl. inversion H as [| ? ? Ht _]; subst. rewrite Ht. reflexivity.
  - unfold cores_for_targets. rewrite loop_not_covered by exact H.
    reflexivity.
Qed.

Lemma cores_for_targets_many hardware_concurrency this_pu pre t post :
  (1 < length (pre ++ t :: post))%nat ->
  Forall (fun u => test (get_device u) this_pu = false) pre ->
  test (get_device t) this_pu = true ->
  cores_for_targets hardware_concurrency this_pu (pre ++ t :: post)
  = returns (set_lowest
               (set (set_lowest (make_mask hardware_concurrency) pre) this_pu)
               post).
Proof.
  intros Hlen Hpre Ht.
  assert (E : forall l : list target, (1 < length l)%nat ->
            cores_for_targets hardware_concurrency this_pu l
            = let '(mask, this_thread_is_represented) :=
                fold_left (cores_loop_body this_pu) l
                  (make_mask hardware_concurrency, false) in
              if negb this_thread_is_represented
              then throws bad_parameter_some_target
              else returns mask).
  { intros [| a [| b l]] Hl; simpl in Hl; try lia; reflexivity. }
  rewrite E by exact Hlen.
  rewrite loop_first_covered by assumption. reflexivity.
Qed.

(** The representative of a target as the specification words it: the
    caller's core for a target that holds it, the lowest core otherwise. *)
Definition claimed_representative (this_pu : N) (t : target) : N :=
  if test (get_device t) this_pu then this_pu else find_first (get_device t).

(** C8 (as the code has it): with more than one target and the caller's
    core in at least one of them, [cores_for_targets] returns a mask whose
    cores are exactly the representatives of the targets: the caller's core
    for the first target (in the order given) that holds it, and for every
    other target, before or after it, the result of [find_first] on its
    mask, which is its lowest-numbered core when the mask is not empty. *)
Theorem representative_cores (hardware_concurrency this_pu : N)
    (targets : list target) :
  (1 < length targets)%nat ->
  Exists (fun t => test (get_device t) this_pu = true) targets ->
  exists pre t post mask,
    targets = pre ++ t :: post
    /\ Forall (fun u => test (get_device u) this_pu = false) pre
    /\ test (get_device t) this_pu = true
    /\ cores_for_targets hardware_concurrency this_pu targets = returns mask
    /\ (forall c : N,
          test mask c = true
          <-> c = this_pu
              \/ exists u, u ∈ pre ++ post /\ c = find_first (get_device u))
    /\ (forall u, u ∈ pre ++ post -> get_device u <> 0%N ->
          lowest_core (get_device u) (find_first (get_device u))).
Proof.
  intros Hlen Hex.
  destruct (first_covering_target this_pu targets Hex)
    as (pre & t & post & -> & Hpre & Ht).
  exists pre, t, post. eexists.
  split; [reflexivity |]. split; [exact Hpre |]. split; [exact Ht |].
  split; [apply cores_for_targets_many; assumption |]. split.
  - intros c. rewrite test_set_lowest, test_set, orb_true_iff, N.eqb_eq.
    rewrite test_set_lowest, test_make_mask. split.
    + intros [[H | [H | [u [Hu Hc]]]] | [u [Hu Hc]]].
      * left. congruence.
      * discriminate H.
      * right. exists u. split; [apply elem_of_app; tauto | exact Hc].
      * right. exists u. split; [apply elem_of_app; tauto | exact Hc].
    + intros [H | [u [Hu Hc]]].
      * left. left. congruence.
      * apply elem_of_app in Hu. destruct Hu as [Hu | Hu].
        -- left. right. right. exists u. tauto.
        -- right. exists u. tauto.
  - intros u _ Hne. apply find_first_lowest. exact Hne.
Qed.

Lemma representative_cores_witness :
  (1 < length [Target 3%N; Target 12%N])%nat
  /\ Exists (fun t => test (get_device t) 1%N = true) [Target 3%N; Target 12%N]
  /\ exists mask,
       cores_for_targets 4%N 1%N [Target 3%N; Target 12%N] = returns mask
       /\ test mask 1%N = true.
Proof.
  assert (Hlen : (1 < length [Target 3%N; Target 12%N])%nat) by (simpl; lia).
  assert (Hex : Exists (fun t => test (get_device t) 1%N = true)
                  [Target 3%N; Target 12%N]) by (left; reflexivity).
  split; [exact Hlen |]. split; [exact Hex |].
  destruct (representative_cores 4%N 1%N [Target 3%N; Target 12%N] Hlen Hex)
    as (pre & t & post & mask & _ & _ & _ & Hmask & Hbits & _).
  exists mask. split; [exact Hmask |]. apply Hbits. left. reflexivity.
Defined.

(** C8 (counterexample to "whichever target contains it"): two targets
    that both hold the caller's core 1, with masks [{0,1}] and [{0,1,2}].
    The first is represented by core 1; the second is not, it gets its
    lowest core 0.  So core 0 is in the mask although, in the words of the
    specification, it represents no target. *)
Lemma second_covering_target_gets_lowest_core :
  (1 < length [Target 3%N; Target 7%N])%nat
  /\ Exists (fun t => test (get_device t) 1%N = true) [Target 3%N; Target 7%N]
  /\ cores_for_targets 4%N 1%N [Target 3%N; Target 7%N] = returns 3%N
  /\ ~ (forall c : N,
          test 3%N c = true
          <-> exists u, u ∈ [Target 3%N; Target 7%N]
                        /\ claimed_representative 1%N u = c).
Proof.
  split; [simpl; lia |]. split; [left; reflexivity |].
  split; [reflexivity |].
  intros H. destruct (proj1 (H 0%N) eq_refl) as [u [Hu Hc]].
  apply elem_of_cons in Hu. destruct Hu as [-> | Hu]; [discriminate Hc |].
  apply elem_of_cons in Hu. destruct Hu as [-> | Hu]; [discriminate Hc |].
  inversion Hu.
Qed.

(** *** Construction *)

Section Construction.
Context {thread_priority thread_stacksize : Type}.
Local Abbreviation fj_executor :=
  (fork_join_executor thread_priority thread_stacksize).
Local Abbreviation bfj_executor :=
  (block_fork_join_executor thread_priority thread_stacksize).

(** C6: when no target's mask holds the core of the constructing thread,
    the constructor itself leaves with [bad_parameter]: with the message for
    the given target when there is exactly one, with the message for "at
    least one of the given targets" otherwise.  No executor is built. *)
Theorem constructor_rejects_uncovered_caller
    (hardware_concurrency this_pu : N) (targets : list target)
    (priority : thread_priority) (stacksize : thread_stacksize)
    (schedule : loop_schedule) (yield_delay : Z) :
  Forall (fun t => test (get_device t) this_pu = false) targets ->
  make_block_fork_join_executor hardware_concurrency this_pu targets
    priority stacksize schedule yield_delay
  = throws (if (length targets =? 1)%nat
            then bad_parameter_one_target
            else bad_parameter_some_target).
Proof.
  intros H. unfold make_block_fork_join_executor.
  rewrite cores_for_targets_not_covered by exact H. reflexivity.
Qed.

(** [init_f] over the counting shape fills the reserved vector from the
    left. *)
Lemma init_prefix (exec : fj_executor) (targets : list target)
    (priority : thread_priority) (stacksize : thread_stacksize)
    (schedule : loop_schedule) (yield_delay : Z) (k : nat) :
  (k <= length targets)%nat ->
  fork_join_bulk_sync_execute exec
    (init_f targets priority stacksize schedule yield_delay)
    (make_counting_shape k) (replicate (length targets) no_init)
  = (returns tt,
     map (fun t => make_fork_join_executor (get_device t) priority stacksize
                     schedule yield_delay) (take k targets)
     ++ replicate (length targets - k) no_init).
Proof.
  induction k as [| k IH]; intros Hk.
  - simpl. rewrite Nat.sub_0_r. reflexivity.
  - rewrite make_counting_shape_S, bulk_app. unfold Hpx.bind.
    rewrite IH by lia. simpl. unfold Hpx.bind, init_f, ret.
    rewrite Nat2Z.id.
    destruct (lookup_lt_is_Some_2 targets k ltac:(lia)) as [t Ht].
    rewrite Ht. f_equal.
    rewrite insert_app_r_alt by (rewrite length_map, length_take; lia).
    rewrite length_map, length_take_le by lia.
    rewrite Nat.sub_diag.
    replace (length targets - k)%nat with (S (length targets - S k)) by lia.
    rewrite (take_S_r _ _ _ Ht), map_app, <- app_assoc. reflexivity.
Qed.

(** C7 (as the code has it): with more than one target, the sub-executor
    of each target is built from that target's full mask and the loop
    schedule the constructor was asked for; it is the top-level executor,
    over the representative cores, that always uses the static schedule. *)
Theorem sub_executors_use_requested_schedule
    (hardware_concurrency this_pu : N) (targets : list target)
    (priority : thread_priority) (stacksize : thread_stacksize)
    (schedule : loop_schedule) (yield_delay : Z) (self : bfj_executor) :
  (1 < length targets)%nat ->
  make_block_fork_join_executor hardware_concurrency this_pu targets
    priority stacksize schedule yield_delay = returns self ->
  block_execs_ self
  = map (fun t => make_fork_join_executor (get_device t) priority stacksize
                    schedule yield_delay) targets
  /\ exists mask,
       cores_for_targets hardware_concurrency this_pu targets = returns mask
       /\ exec_ self
          = make_fork_join_executor mask priority stacksize static_
              yield_delay.
Proof.
  intros Hlen. unfold make_block_fork_join_executor.
  destruct (cores_for_targets hardware_concurrency this_pu targets)
    as [mask | e]; [| discriminate].
  destruct (Nat.ltb_spec 1 (length targets)) as [_ | Hge]; [| lia].
  destruct (Nat.eqb_spec (length targets) 1) as [E1 | _]; [lia |].
  rewrite init_prefix by lia.
  rewrite take_ge, Nat.sub_diag, app_nil_r by lia.
  intros [= <-]. simpl. split; [reflexivity |].
  exists mask. split; reflexivity.
Qed.

(** C9: [bulk_async_execute] runs [bulk_sync_execute] and nothing else, so
    it leaves the world as the synchronous call leaves it; it never throws;
    the future it returns is ready when the synchronous call returned and
    holds the captured exception when the synchronous call threw.  It is
    never a pending future. *)
Theorem bulk_async_execute_captures {W Ix} (self : bfj_executor)
    (f : Ix -> M W unit) (shape : list Ix) (w : W) :
  bulk_async_execute self f shape w
  = match bulk_sync_execute self f shape w with
    | (returns _, w') => (returns (make_ready_future tt), w')
    | (throws ep, w') => (returns (make_exceptional_future ep), w')
    end.
Proof.
  unfold bulk_async_execute, try_catch_exception_ptr, Hpx.bind, ret.
  destruct (bulk_sync_execute self f shape w) as [[u | ep] w']; reflexivity.
Qed.

End Construction.

Lemma constructor_rejects_uncovered_caller_witness :
  Forall (fun t => test (get_device t) 0%N = false) [Target 2%N]
  /\ make_block_fork_join_executor 4%N 0%N [Target 2%N] tt tt dynamic 1000000
     = throws bad_parameter_one_target.
Proof.
  assert (H : Forall (fun t => test (get_device t) 0%N = false) [Target 2%N])
    by (constructor; [reflexivity | constructor]).
  split; [exact H |].
  exact (constructor_rejects_uncovered_caller
           4%N 0%N [Target 2%N] tt tt dynamic 1000000 H).
Defined.

(** Two targets on cores 1 and 2, constructed from core 0. *)
Example constructor_rejects_two_targets :
  make_block_fork_join_executor 4%N 0%N [Target 2%N; Target 4%N]
    tt tt static_ 1000000
  = throws bad_parameter_some_target.
Proof. reflexivity. Qed.

Lemma sub_executors_use_requested_schedule_witness :
  (1 < length [Target 1%N; Target 2%N])%nat
  /\ make_block_fork_join_executor 4%N 0%N [Target 1%N; Target 2%N]
       tt tt dynamic 1000000
     = returns
         {| exec_ := make_fork_join_executor 3%N tt tt static_ 1000000;
            block_execs_ :=
              [make_fork_join_executor 1%N tt tt dynamic 1000000;
               make_fork_join_executor 2%N tt tt dynamic 1000000] |}
  /\ block_execs_
       {| exec_ := make_fork_join_executor 3%N tt tt static_ 1000000;
          block_execs_ :=
            [make_fork_join_executor 1%N tt tt dynamic 1000000;
             make_fork_join_executor 2%N tt tt dynamic 1000000] |}
     = map (fun t => make_fork_join_executor (get_device t) tt tt dynamic
                       1000000) [Target 1%N; Target 2%N].
Proof.
  assert (Hlen : (1 < length [Target 1%N; Target 2%N])%nat) by (simpl; lia).
  assert (Hmk :
    make_block_fork_join_executor 4%N 0%N [Target 1%N; Target 2%N]
      tt tt dynamic 1000000
    = returns
        {| exec_ := make_fork_join_executor 3%N tt tt static_ 1000000;
           block_execs_ :=
             [make_fork_join_executor 1%N tt tt dynamic 1000000;
              make_fork_join_executor 2%N tt tt dynamic 1000000] |})
    by reflexivity.
  split; [exact Hlen |]. split; [exact Hmk |].
  exact (proj1 (sub_executors_use_requested_schedule
                  4%N 0%N [Target 1%N; Target 2%N] tt tt dynamic 1000000
                  _ Hlen Hmk)).
Defined.

(** C7 (counterexample to "always static"): two targets and a request for
    the dynamic schedule.  Both sub-executors are built with the dynamic
    schedule, not the static one. *)
Lemma sub_executors_dynamic_when_requested :
  (1 < length [Target 1%N; Target 2%N])%nat
  /\ exists self : block_fork_join_executor unit unit,
       make_block_fork_join_executor 4%N 0%N [Target 1%N; Target 2%N]
         tt tt dynamic 1000000 = returns self
       /\ ~ Forall (fun sub => schedule_of sub = Some static_)
             (block_execs_ self).
Proof.
  split; [simpl; lia |].
  exists {| exec_ := make_fork_join_executor 3%N tt tt static_ 1000000;
            block_execs_ :=
              [make_fork_join_executor 1%N tt tt dynamic 1000000;
               make_fork_join_executor 2%N tt tt dynamic 1000000] |}.
  split; [reflexivity |].
  intros H. inversion H as [| ? ? Hhd _]. discriminate Hhd.
Qed.

(** A user function that throws on index 5: the asynchronous form hands the
    exception back inside the future. *)
Example bulk_async_execute_failed_future :
  bulk_async_execute
    {| exec_ := make_fork_join_executor 3%N tt tt static_ 1000000;
       block_execs_ :=
         [make_fork_join_executor 1%N tt tt dynamic 1000000;
          make_fork_join_executor 2%N tt tt dynamic 1000000] |}
    (fun i : Z => if (i =? 5)%Z then throw (user_exception 7)
                  else record_call i)
    (make_counting_shape 10) []
  = (returns (make_exceptional_future (user_exception 7)),
     [0; 1; 2; 3; 4]%Z).
Proof. vm_compute. reflexivity. Qed.

End BlockForkJoin.

(** ** all_reduce *)

Module AllReduce.
Import Hpx.
Local Open Scope hpx_scope.

(** [std::size_t(-1)]: what the argument types hold when no value is given
    (the header tests [this_site == std::size_t(-1)], and its compatibility
    overloads spell the defaults of [generation] and [this_site] this way). *)
Definition not_given : Z := SizeT.npos.

Section Collective.
(** The type of the values that are reduced. *)
Context {T : Type}.

(** *** The communicator's side: [communication_operation::get] *)

(** The buffer of one generation: the slot array [data], one slot per
    site, and the flag [data_available] that the finalizer receives by
    reference. *)
Record comm_state := CommState
  { data : list T; data_available : bool }.

(** Calling the reduction function once; the world is the number of calls
    made so far. *)
Definition invoke (op : T -> T -> T) (a b : T) : M nat T :=
  fun calls => (returns (op a b), S calls).

(** Modelled from the spec: [hpx::reduce] lives in
    [hpx/parallel/algorithms/reduce.hpp], which is not part of the sources
    at hand.  The fold is "left-to-right over slot[1..num_sites) into
    slot[0], seeded by slot[0], using reduce_fn". *)
Fixpoint hpx_reduce (range : list T) (init : T) (op : T -> T -> T)
  : M nat T :=
  match range with
  | [] => ret init
  | x :: rest => acc <- invoke op init x ;; hpx_reduce rest acc op
  end.

(** The step function: [data[which] = t].  ([which] is a site rank, below
    the number of slots; past the end the assignment is undefined in C++ and
    leaves the list as it is here.) *)
Definition step (which : nat) (t : T) (st : comm_state) : comm_state :=
  {| data := <[which := t]> (data st);
     data_available := data_available st |}.

(** The finalizer: fold once, then answer [data[0]].  (For [bool] the
    answer is [bool(data[0])], the same value.) *)
Definition finalizer (op : T -> T -> T) (st : comm_state)
  : M nat (T * comm_state) :=
  match data st with
  | [] => throw (assertion_failure "!data.empty()")
  | first :: others =>
      st' <- (if negb (data_available st) && (1 <? length (data st))%nat
              then
                r <- hpx_reduce others first op ;;
                ret {| data := <[0%nat := r]> (data st);
                       data_available := true |}
              else ret st) ;;
      match data st' with
      | [] => throw (assertion_failure "!data.empty()")
      | answer :: _ => ret (answer, st')
      end
  end.

(** Modelled from the spec: [communicator_server::handle_data] is not part
    of the sources at hand.  The communicator "holds a per-generation slot
    array indexed by site rank"; a call "records local_value into
    slot[this_site] for generation g" as it arrives and "returns a future
    resolved once this site's contribution is recorded and the fold (if
    needed) is available"; the check-fold-flag sequence runs with the
    communicator's lock held "for its entire critical section".  So an
    arrival applies the step function to the buffer of its generation, and
    once every slot is filled the continuation of each call runs the
    finalizer on that buffer, one call at a time, and makes the call's
    future ready with the finalizer's answer. *)
Abbreviation communicator_server := (gmap N comm_state).

Definition on_arrival (generation : N) (step_fn : comm_state -> comm_state)
    (server : communicator_server) : communicator_server :=
  alter step_fn generation server.

Definition on_ready (generation : N)
    (finalize_fn : comm_state -> M nat (T * comm_state))
    (server : communicator_server)
  : M nat (future T * communicator_server) :=
  match server !! generation with
  | None => ret (pending_future, server)
  | Some st =>
      try_catch_exception_ptr
        (r <- finalize_fn st ;;
         ret (make_ready_future (fst r), <[generation := snd r]> server))
        (fun ep => ret (make_exceptional_future ep, server))
  end.

(** The two halves of [communication_operation<Communicator,
    all_reduce_tag>::get(communicator, which, generation, t, op)]. *)
Definition get_arrive (which : nat) (generation : N) (t : T)
    (server : communicator_server) : communicator_server :=
  on_arrival generation (step which t) server.

Definition get_complete (generation : N) (op : T -> T -> T)
    (server : communicator_server)
  : M nat (future T * communicator_server) :=
  on_ready generation (finalizer op) server.

(** The continuations of the sites in [sites] run one after the other. *)
Fixpoint complete_all (generation : N) (op : T -> T -> T)
    (sites : list nat) (server : communicator_server)
  : M nat (list (nat * future T) * communicator_server) :=
  match sites with
  | [] => ret ([], server)
  | site :: rest =>
      r <- get_complete generation op server ;;
      rs <- complete_all generation op rest (snd r) ;;
      ret ((site, fst r) :: fst rs, snd rs)
  end.

(** One round of generation [generation]: the calls [(which, t)] arrive in
    the order [arrivals]; then the continuations run in the order
    [completions].  The answer lists the future of each site. *)
Definition all_reduce_round (generation : N) (op : T -> T -> T)
    (arrivals : list (nat * T)) (completions : list nat)
    (server : communicator_server)
  : M nat (list (nat * future T) * communicator_server) :=
  complete_all generation op completions
    (fold_left (fun srv a => get_arrive (fst a) generation (snd a) srv)
       arrivals server).

(** *** The caller's side: [hpx::collectives::all_reduce] *)

(** What a call does besides computing: asking AGAS for the locality id,
    creating (or looking up) the communicator of a base name, launching the
    [communication_get_action] on the communicator. *)
Inductive event :=
| get_locality_id_called
| create_communicator_called
    (basename : string) (num_sites this_site generation root_site : Z)
| communication_get_action_launched (this_site generation : Z).

Definition emit (e : event) : M (list event) unit :=
  fun trace => (returns tt, trace ++ [e]).

(** The parts of the runtime the header calls into: the client type
    [communicator], [agas::get_locality_id()], [create_communicator],
    [fid.then(hpx::launch::sync, f)] and the future that
    [async(action_type(), c, this_site, generation, local_result, op)]
    returns. *)
Context {communicator : Type}.
Variable agas_get_locality_id : Z.
Variable create_communicator : string -> Z -> Z -> Z -> Z -> communicator.
Variable then_sync :
  communicator -> (communicator -> M (list event) (future T)) ->
  M (list event) (future T).
Variable async_action :
  communicator -> Z -> Z -> T -> (T -> T -> T) -> future T.

Definition generation_zero : exception :=
  bad_parameter "hpx::collectives::all_reduce"
    "the generation number shouldn't be zero".

(** The lambda [all_reduce_data].  (When the result is not ready the lambda
    also ties the lifetime of the client to the future; that changes no
    value.) *)
Definition all_reduce_data (local_result : T) (op : T -> T -> T)
    (generation this_site : Z) (c : communicator)
  : M (list event) (future T) :=
  emit (communication_get_action_launched this_site generation) ;;
  ret (async_action c this_site generation local_result op).

(** [all_reduce(communicator fid, T&& local_result, F&& op,
    this_site_arg this_site, generation_arg generation)]. *)
Definition all_reduce (fid : communicator) (local_result : T)
    (op : T -> T -> T) (this_site generation : Z)
  : M (list event) (future T) :=
  this_site <- (if (this_site =? not_given)%Z
                then emit get_locality_id_called ;; ret agas_get_locality_id
                else ret this_site) ;;
  if (generation =? 0)%Z
  then ret (make_exceptional_future generation_zero)
  else then_sync fid (all_reduce_data local_result op generation this_site).

(** [all_reduce(communicator fid, T&& local_result, F&& op,
    generation_arg generation, this_site_arg this_site)]. *)
Definition all_reduce_generation_first (fid : communicator)
    (local_result : T) (op : T -> T -> T) (generation this_site : Z)
  : M (list event) (future T) :=
  all_reduce fid local_result op this_site generation.

(** [all_reduce(char const* basename, T&& local_result, F&& op,
    num_sites, this_site, generation, root_site)]: the call it forwards to
    names four arguments, so the generation of the inner call is the
    default [generation_arg()]. *)
Definition all_reduce_basename (basename : string) (local_result : T)
    (op : T -> T -> T) (num_sites this_site generation root_site : Z)
  : M (list event) (future T) :=
  emit (create_communicator_called basename num_sites this_site generation
          root_site) ;;
  all_reduce
    (create_communicator basename num_sites this_site generation root_site)
    local_result op this_site not_given.

(** *** The fold *)

Lemma hpx_reduce_spec (range : list T) (init : T) (op : T -> T -> T)
    (calls : nat) :
  hpx_reduce range init op calls
  = (returns (fold_left op range init), calls + length range).
Proof.
  revert init calls. induction range as [| x rest IH]; intros init calls.
  - simpl. unfold ret. f_equal. lia.
  - simpl. unfold Hpx.bind, invoke. rewrite IH. f_equal. lia.
Qed.

(** The finalizer that finds the flag unset and more than one slot folds
    and sets the flag. *)
Lemma finalizer_fold (op : T -> T -> T) (st : comm_state) first others calls :
  data st = first :: others -> others <> [] -> data_available st = false ->
  finalizer op st calls
  = (returns (fold_left op others first,
              {| data := fold_left op others first :: others;
                 data_available := true |}),
     calls + length others).
Proof.
  intros Hd Hne Hf. unfold finalizer. rewrite Hd, Hf.
  assert (E : negb false && (1 <? length (first :: others))%nat = true).
  { destruct others as [| o os]; [congruence | reflexivity]. }
  rewrite E. unfold Hpx.bind.
  rewrite hpx_reduce_spec. reflexivity.
Qed.

(** The finalizer that finds the flag set, or a single slot, only reads
    [data[0]]. *)
Lemma finalizer_idle (op : T -> T -> T) (st : comm_state) first others calls :
  data st = first :: others ->
  data_available st = true \/ others = [] ->
  finalizer op st calls = (returns (first, st), calls).
Proof.
  intros Hd Hidle. unfold finalizer. rewrite Hd.
  assert (E : negb (data_available st)
              && (1 <? length (first :: others))%nat = false).
  { destruct Hidle as [-> | ->]; [reflexivity |].
    simpl. apply andb_false_r. }
  rewrite E. unfold Hpx.bind, ret. rewrite Hd. reflexivity.
Qed.

Lemma get_complete_fold generation op (server : communicator_server) st
    first others calls :
  server !! generation = Some st ->
  data st = first :: others -> others <> [] -> data_available st = false ->
  get_complete generation op server calls
  = (returns (make_ready_future (fold_left op others first),
              <[generation := {| data := fold_left op others first :: others;
                                 data_available := true |}]> server),
     calls + length others).
Proof.
  intros Hs Hd Hne Hf. unfold get_complete, on_ready. rewrite Hs.
  unfold try_catch_exception_ptr, Hpx.bind.
  rewrite (finalizer_fold op st first others calls Hd Hne Hf). reflexivity.
Qed.

Lemma get_complete_idle generation op (server : communicator_server) st
    first others calls :
  server !! generation = Some st ->
  data st = first :: others ->
  data_available st = true \/ others = [] ->
  get_complete generation op server calls
  = (returns (make_ready_future first, server), calls).
Proof.
  intros Hs Hd Hidle. unfold get_complete, on_ready. rewrite Hs.
  unfold try_catch_exception_ptr, Hpx.bind.
  rewrite (finalizer_idle op st first others calls Hd Hidle).
  unfold ret. cbn [fst snd]. rewrite insert_id by exact Hs. reflexivity.
Qed.

Lemma complete_all_idle generation op (sites : list nat)
    (server : communicator_server) st first others calls :
  server !! generation = Some st ->
  data st = first :: others ->
  data_available st = true \/ others = [] ->
  complete_all generation op sites server calls
  = (returns (map (fun site => (site, make_ready_future first)) sites,
              server), calls).
Proof.
  intros Hs Hd Hidle. induction sites as [| site rest IH].
  - reflexivity.
  - simpl. unfold Hpx.bind at 1.
    rewrite (get_complete_idle generation op server st first others calls
               Hs Hd Hidle).
    simpl. unfold Hpx.bind. rewrite IH. reflexivity.
Qed.

(** *** Arrivals *)

Definition write_slot (d : list T) (a : nat * T) : list T :=
  <[fst a := snd a]> d.

Lemma arrivals_lookup generation (arrivals : list (nat * T))
    (server : communicator_server) :
  fold_left (fun srv a => get_arrive (fst a) generation (snd a) srv)
    arrivals server !! generation
  = (fun st => {| data := fold_left write_slot arrivals (data st);
                  data_available := data_available st |})
    <$> server !! generation.
Proof.
  revert server. induction arrivals as [| a rest IH]; intros server.
  - simpl. destruct (server !! generation) as [[d b] |]; reflexivity.
  - simpl. rewrite IH. unfold get_arrive, on_arrival.
    rewrite lookup_alter_eq.
    destruct (server !! generation) as [[d b] |]; reflexivity.
Qed.

Lemma arrivals_lookup_ne generation generation' (arrivals : list (nat * T))
    (server : communicator_server) :
  generation <> generation' ->
  fold_left (fun srv a => get_arrive (fst a) generation (snd a) srv)
    arrivals server !! generation'
  = server !! generation'.
Proof.
  intros Hne. revert server.
  induction arrivals as [| a rest IH]; intros server.
  - reflexivity.
  - simpl. rewrite IH. unfold get_arrive, on_arrival.
    apply lookup_alter_ne. exact Hne.
Qed.

Lemma write_slots_lookup (contributions : list T)
    (arrivals : list (nat * T)) (d : list T) (i : nat) :
  (forall k v, (k, v) ∈ arrivals ->
               (k < length d)%nat /\ contributions !! k = Some v) ->
  fold_left write_slot arrivals d !! i
  = if decide (i ∈ fst <$> arrivals) then contributions !! i else d !! i.
Proof.
  revert d. induction arrivals as [| [k v] rest IH]; intros d Hin.
  - cbn [fold_left]. case_decide as H; [inversion H | reflexivity].
  - destruct (Hin k v ltac:(left)) as [Hk Hv].
    cbn [fold_left]. rewrite IH.
    2:{ intros k' v' H'. unfold write_slot. rewrite length_insert.
        apply Hin. right. exact H'. }
    unfold write_slot. cbn [fst snd]. rewrite fmap_cons. cbn [fst].
    destruct (decide (i ∈ fst <$> rest)) as [Hi | Hi].
    + rewrite decide_True by (right; exact Hi). reflexivity.
    + destruct (decide (i = k)) as [-> | Hne].
      * rewrite decide_True by left.
        rewrite list_lookup_insert_eq by exact Hk. congruence.
      * rewrite decide_False.
        -- apply list_lookup_insert_ne. congruence.
        -- intros H. apply elem_of_cons in H. tauto.
Qed.

(** When the calls of the sites [0 .. n-1] have all arrived, in whatever
    order, slot [i] holds the contribution of site [i]. *)
Lemma write_slots_all (contributions : list T) (arrivals : list (nat * T))
    (d : list T) :
  length d = length contributions ->
  arrivals ≡ₚ imap pair contributions ->
  fold_left write_slot arrivals d = contributions.
Proof.
  intros Hlen Hperm.
  assert (Hin : forall k v, (k, v) ∈ arrivals <-> contributions !! k = Some v).
  { intros k v. rewrite Hperm, elem_of_lookup_imap. split.
    - intros (i & y & [= -> ->] & Hy). exact Hy.
    - intros H. exists k, v. split; [reflexivity | exact H]. }
  apply list_eq. intros i.
  rewrite (write_slots_lookup contributions).
  2:{ intros k v H. apply Hin in H. split; [| exact H].
      rewrite Hlen. eapply lookup_lt_Some. exact H. }
  destruct (decide (i ∈ fst <$> arrivals)) as [Hi | Hi]; [reflexivity |].
  destruct (contributions !! i) as [v |] eqn:Hv.
  - exfalso. apply Hi. apply list_elem_of_fmap. exists (i, v).
    split; [reflexivity | apply Hin; exact Hv].
  - apply lookup_ge_None. rewrite Hlen. apply lookup_ge_None. exact Hv.
Qed.

Lemma arrivals_fill generation (contributions : list T)
    (arrivals : list (nat * T)) (server : communicator_server) st0 :
  server !! generation = Some st0 ->
  length (data st0) = length contributions ->
  arrivals ≡ₚ imap pair contributions ->
  fold_left (fun srv a => get_arrive (fst a) generation (snd a) srv)
    arrivals server
  = <[generation := {| data := contributions;
                       data_available := data_available st0 |}]> server.
Proof.
  intros Hs Hlen Hperm. apply map_eq. intros g.
  destruct (decide (generation = g)) as [<- | Hne].
  - rewrite arrivals_lookup, Hs, lookup_insert_eq. simpl.
    rewrite (write_slots_all contributions) by assumption. reflexivity.
  - rewrite arrivals_lookup_ne, lookup_insert_ne by exact Hne. reflexivity.
Qed.

(** *** A whole round *)

Lemma all_reduce_round_spec generation op (first : T) (others : list T)
    (arrivals : list (nat * T)) (completions : list nat)
    (server : communicator_server) st0 calls :
  server !! generation = Some st0 ->
  length (data st0) = S (length others) ->
  data_available st0 = false ->
  arrivals ≡ₚ imap pair (first :: others) ->
  completions <> [] ->
  all_reduce_round generation op arrivals completions server calls
  = (returns
       (map (fun site => (site, make_ready_future (fold_left op others first)))
          completions,
        <[generation :=
            {| data := fold_left op others first :: others;
               data_available := match others with
                                 | [] => false
                                 | _ => true
                                 end |}]> server),
     calls + length others).
Proof.
  intros Hs Hlen Hf Hperm Hne. unfold all_reduce_round.
  rewrite (arrivals_fill generation (first :: others) arrivals server st0)
    by assumption.
  rewrite Hf.
  destruct others as [| o os].
  - rewrite (complete_all_idle generation op completions _
               {| data := [first]; data_available := false |} first []);
      [| apply lookup_insert_eq | reflexivity | right; reflexivity].
    simpl. f_equal. lia.
  - destruct completions as [| site rest]; [congruence |].
    set (total := fold_left op (o :: os) first).
    simpl complete_all. unfold Hpx.bind at 1.
    rewrite (get_complete_fold generation op _
               {| data := first :: o :: os; data_available := false |}
               first (o :: os));
      [| apply lookup_insert_eq | reflexivity | congruence | reflexivity].
    fold total. simpl fst. simpl snd. rewrite insert_insert_eq.
    unfold Hpx.bind.
    rewrite (complete_all_idle generation op rest _
               {| data := total :: o :: os; data_available := true |}
               total (o :: os));
      [| apply lookup_insert_eq | reflexivity | left; reflexivity].
    reflexivity.
Qed.

(** C1: take a generation whose buffer has one slot per site and the flag
    unset.  Once the calls of all sites have arrived, in any order, and the
    continuations of the sites run, in any order, every site's future is
    ready with the left-to-right reduction of slots 1, 2, ... seeded by slot
    0, and that value is what slot 0 holds afterwards; the buffers of other
    generations are untouched. *)
Theorem all_reduce_round_resolves (generation : N) (op : T -> T -> T)
    (first : T) (others : list T) (arrivals : list (nat * T))
    (completions : list nat) (server : communicator_server)
    (st0 : comm_state) (calls : nat) :
  server !! generation = Some st0 ->
  length (data st0) = S (length others) ->
  data_available st0 = false ->
  arrivals ≡ₚ imap pair (first :: others) ->
  completions ≡ₚ seq 0 (S (length others)) ->
  exists results server' calls',
    all_reduce_round generation op arrivals completions server calls
    = (returns (results, server'), calls')
    /\ results
       = map (fun site => (site, make_ready_future (fold_left op others first)))
           completions
    /\ (forall site : nat,
          (site < S (length others))%nat ->
          (site, make_ready_future (fold_left op others first)) ∈ results)
    /\ (exists st',
          server' !! generation = Some st'
          /\ data st' = fold_left op others first :: others)
    /\ (forall g : N, g <> generation -> server' !! g = server !! g).
Proof.
  intros Hs Hlen Hf Harr Hcomp.
  assert (Hne : completions <> []).
  { intros ->. apply Permutation_nil_l in Hcomp. discriminate Hcomp. }
  eexists _, _, _. split.
  { apply (all_reduce_round_spec generation op first others arrivals
             completions server st0 calls); assumption. }
  split; [reflexivity |]. split; [| split].
  - intros site Hsite.
    apply (list_elem_of_fmap_2
             (fun site => (site, make_ready_future (fold_left op others first)))).
    rewrite Hcomp. apply list_elem_of_In, in_seq. lia.
  - eexists. split; [apply lookup_insert_eq | reflexivity].
  - intros g Hg. apply lookup_insert_ne. congruence.
Qed.

(** C2: in the same round, however many continuations reach the finalizer
    and in whatever order, the reduction function is called [num_sites - 1]
    times in all.  A finalizer that finds the flag set calls it not at all
    and changes nothing; the finalizer that folds sets the flag. *)
Theorem reduce_fn_called_once_per_slot (generation : N) (op : T -> T -> T)
    (first : T) (others : list T) (arrivals : list (nat * T))
    (completions : list nat) (server : communicator_server)
    (st0 : comm_state) (calls : nat) :
  server !! generation = Some st0 ->
  length (data st0) = S (length others) ->
  data_available st0 = false ->
  arrivals ≡ₚ imap pair (first :: others) ->
  completions <> [] ->
  snd (all_reduce_round generation op arrivals completions server calls)
  = (calls + (S (length others) - 1))%nat
  /\ (forall (st : comm_state) (n : nat),
        data st <> [] -> data_available st = true ->
        exists answer, finalizer op st n = (returns (answer, st), n))
  /\ (forall (st : comm_state) (n : nat),
        (1 < length (data st))%nat -> data_available st = false ->
        exists answer st',
          finalizer op st n
          = (returns (answer, st'), (n + (length (data st) - 1))%nat)
          /\ data_available st' = true).
Proof.
  intros Hs Hlen Hf Harr Hne. split; [| split].
  - rewrite (all_reduce_round_spec generation op first others arrivals
               completions server st0 calls) by assumption.
    simpl. f_equal. lia.
  - intros st n Hd Hav. destruct (data st) as [| f os] eqn:E; [congruence |].
    exists f. apply (finalizer_idle op st f os n E). left. exact Hav.
  - intros st n Hd Hav. destruct (data st) as [| f os] eqn:E;
      [simpl in Hd; lia |].
    assert (Hos : os <> []) by (intros ->; simpl in Hd; lia).
    eexists _, _. split.
    + rewrite (finalizer_fold op st f os n E Hos Hav).
      simpl. rewrite Nat.sub_0_r. reflexivity.
    + reflexivity.
Qed.

(** C10: with a single site the slot array has one slot.  The finalizer
    calls the reduction function not at all, leaves the flag as it found
    it, and answers the value the step function stored: the site's own
    contribution.  A round with that one site resolves every future asked
    for to the contribution. *)
Theorem single_site_no_reduction (op : T -> T -> T) (slot t : T)
    (flag : bool) (calls : nat) :
  finalizer op (step 0 t {| data := [slot]; data_available := flag |}) calls
  = (returns (t, {| data := [t]; data_available := flag |}), calls)
  /\ forall (generation : N) (server : communicator_server)
        (completions : list nat),
      all_reduce_round generation op [(0%nat, t)] completions
        (<[generation := {| data := [slot]; data_available := flag |}]> server)
        calls
      = (returns (map (fun site => (site, make_ready_future t)) completions,
                  <[generation := {| data := [t]; data_available := flag |}]>
                    server),
         calls).
Proof.
  split.
  - apply (finalizer_idle op _ t []); [reflexivity | right; reflexivity].
  - intros generation server completions. unfold all_reduce_round.
    cbn [fold_left fst snd]. unfold get_arrive, on_arrival.
    rewrite alter_insert_eq.
    apply (complete_all_idle generation op completions _
             {| data := [t]; data_available := flag |} t []);
      [apply lookup_insert_eq | reflexivity | right; reflexivity].
Qed.

(** *** Generation zero *)

(** The overload that takes a base name does not look at its generation:
    it creates the communicator, passing the generation on, and calls the
    communicator overload with the default generation. *)
Lemma all_reduce_basename_forwards (basename : string) (local_result : T)
    (op : T -> T -> T) (num_sites this_site generation root_site : Z)
    (trace : list event) :
  all_reduce_basename basename local_result op num_sites this_site
    generation root_site trace
  = all_reduce
      (create_communicator basename num_sites this_site generation root_site)
      local_result op this_site not_given
      (trace ++ [create_communicator_called basename num_sites this_site
                   generation root_site]).
Proof. reflexivity. Qed.

(** C5 (as the code has it): both overloads that take a communicator
    answer a zero generation at once with a future that already holds
    [bad_parameter]; nothing was done but, when no site was given, asking
    for the locality id: no communicator is created, no action is
    launched, no continuation is attached, no future is left pending. *)
Theorem all_reduce_generation_zero (fid : communicator) (local_result : T)
    (op : T -> T -> T) (this_site : Z) (trace : list event) :
  all_reduce fid local_result op this_site 0 trace
  = (returns (make_exceptional_future generation_zero),
     trace ++ (if (this_site =? not_given)%Z
               then [get_locality_id_called] else []))
  /\ all_reduce_generation_first fid local_result op 0 this_site trace
     = (returns (make_exceptional_future generation_zero),
        trace ++ (if (this_site =? not_given)%Z
                  then [get_locality_id_called] else [])).
Proof.
  assert (H0 : all_reduce fid local_result op this_site 0 trace
               = (returns (make_exceptional_future generation_zero),
                  trace ++ (if (this_site =? not_given)%Z
                            then [get_locality_id_called] else []))).
  { unfold all_reduce, Hpx.bind, emit, ret.
    destruct (this_site =? not_given)%Z.
    - reflexivity.
    - rewrite app_nil_r. reflexivity. }
  split; exact H0.
Qed.

End Collective.

(** *** Concrete rounds *)

(** Four sites contribute 1, 2, 3, 4 to generation 1 and add. *)
Definition four_slots : @comm_state Z :=
  {| data := [0; 0; 0; 0]%Z; data_available := false |}.

Lemma all_reduce_round_resolves_witness :
  exists server' calls',
    all_reduce_round 1%N Z.add
      [(1%nat, 2%Z); (0%nat, 1%Z); (2%nat, 3%Z); (3%nat, 4%Z)]
      [1%nat; 0%nat; 2%nat; 3%nat]
      (<[1%N := four_slots]> ∅) 0
    = (returns ([(1%nat, make_ready_future 10%Z);
                 (0%nat, make_ready_future 10%Z);
                 (2%nat, make_ready_future 10%Z);
                 (3%nat, make_ready_future 10%Z)], server'), calls').
Proof.
  destruct (all_reduce_round_resolves 1%N Z.add 1%Z [2; 3; 4]%Z
              [(1%nat, 2%Z); (0%nat, 1%Z); (2%nat, 3%Z); (3%nat, 4%Z)]
              [1%nat; 0%nat; 2%nat; 3%nat]
              (<[1%N := four_slots]> ∅) four_slots 0)
    as (results & server' & calls' & Hrun & Hres & _).
  - apply lookup_insert_eq.
  - reflexivity.
  - reflexivity.
  - apply perm_swap.
  - apply perm_swap.
  - exists server', calls'. rewrite Hrun, Hres. reflexivity.
Defined.

Lemma reduce_fn_called_once_per_slot_witness :
  snd (all_reduce_round 1%N Z.add
         [(1%nat, 2%Z); (0%nat, 1%Z); (2%nat, 3%Z); (3%nat, 4%Z)]
         [2%nat; 0%nat; 0%nat; 3%nat; 1%nat; 2%nat]
         (<[1%N := four_slots]> ∅) 0)
  = 3%nat.
Proof.
  refine (proj1 (reduce_fn_called_once_per_slot 1%N Z.add 1%Z [2; 3; 4]%Z
                   [(1%nat, 2%Z); (0%nat, 1%Z); (2%nat, 3%Z); (3%nat, 4%Z)]
                   [2%nat; 0%nat; 0%nat; 3%nat; 1%nat; 2%nat]
                   (<[1%N := four_slots]> ∅) four_slots 0 _ _ _ _ _)).
  - apply lookup_insert_eq.
  - reflexivity.
  - reflexivity.
  - apply perm_swap.
  - discriminate.
Defined.

(** C5 (counterexample for the base-name overload): generation 0 on a base
    name, with a communicator that is ready at once and an
    action whose future is still pending.  The communicator is created, the
    action is launched with the default generation, and the caller is left
    with a pending future instead of a parameter error. *)
Lemma all_reduce_basename_generation_zero_communicates :
  all_reduce_basename (T := Z) (communicator := unit)
    0                                  (* agas::get_locality_id() *)
    (fun _ _ _ _ _ => tt)              (* create_communicator *)
    (fun c continuation => continuation c)   (* then: the client is ready *)
    (fun _ _ _ _ _ => pending_future)  (* the action's future *)
    "all_reduce_basename" 1%Z Z.add 4 0 0 0 []
  = (returns pending_future,
     [create_communicator_called "all_reduce_basename" 4 0 0 0;
      communication_get_action_launched 0 not_given])
  /\ @pending_future Z <> make_exceptional_future generation_zero.
Proof. split; [reflexivity | discriminate]. Qed.

End AllReduce.

(** ** sync_wait: the states a receiver can reach *)

Module SyncWaitMore.
Import SyncWait.

Section Reachable.
Context {Error ExceptionPtr : Type}.
Local Abbreviation state := (@shared_state Error ExceptionPtr).








End Reachable.

End SyncWaitMore.

(** ** block_fork_join_executor: placement, construction and edge cases *)

Module BlockForkJoinMore.
Import Hpx CpuMask BlockForkJoin.

(** *** [cores_for_targets] on a covered caller *)

Lemma covered_or_not (this_pu : N) (targets : list target) :
  Exists (fun t => test (get_device t) this_pu = true) targets
  \/ Forall (fun t => test (get_device t) this_pu = false) targets.
Proof.
  induction targets as [| t ts IH].
  - right. constructor.
  - destruct (test (get_device t) this_pu) eqn:Ht.
    + left. left. exact Ht.
    + destruct IH as [IH | IH].
      * left. right. exact IH.
      * right. constructor; assumption.
Qed.

(** The mask [cores_for_targets] answers with, given the first target
    [t] that holds the caller's core, the targets [pre] before it and the
    targets [post] after it. *)
Definition mask_for (hardware_concurrency this_pu : N)
    (pre : list target) (t : target) (post : list target) : mask_type :=
  match pre, post with
  | [], [] => get_device t
  | _, _ =>
      set_lowest
        (set (set_lowest (make_mask hardware_concurrency) pre) this_pu) post
  end.

Lemma cores_for_targets_covered hardware_concurrency this_pu pre t post :
  Forall (fun u => test (get_device u) this_pu = false) pre ->
  test (get_device t) this_pu = true ->
  cores_for_targets hardware_concurrency this_pu (pre ++ t :: post)
  = returns (mask_for hardware_concurrency this_pu pre t post).
Proof.
  intros Hpre Ht.
  destruct pre as [| p pre'].
  - destruct post as [| q post'].
    + simpl. rewrite Ht. reflexivity.
    + apply (cores_for_targets_many hardware_concurrency this_pu [] t
               (q :: post')); [simpl; lia | exact Hpre | exact Ht].
  - unfold mask_for.
    apply cores_for_targets_many; [| exact Hpre | exact Ht].
    rewrite length_app. simpl. lia.
Qed.

Lemma test_mask_for hardware_concurrency this_pu pre t post :
  test (get_device t) this_pu = true ->
  forall c : N,
    test (mask_for hardware_concurrency this_pu pre t post) c = true
    <-> (pre = [] /\ post = [] /\ test (get_device t) c = true)
        \/ (pre ++ post <> []
            /\ (c = this_pu
                \/ exists u, u ∈ pre ++ post /\ c = find_first (get_device u))).
Proof.
  intros Ht c.
  assert (Hgen :
    test (set_lowest
            (set (set_lowest (make_mask hardware_concurrency) pre) this_pu)
            post) c = true
    <-> c = this_pu
        \/ exists u, u ∈ pre ++ post /\ c = find_first (get_device u)).
  { rewrite test_set_lowest, test_set, orb_true_iff, N.eqb_eq.
    rewrite test_set_lowest, test_make_mask. split.
    - intros [[H | [H | [u [Hu Hc]]]] | [u [Hu Hc]]].
      + left. congruence.
      + discriminate H.
      + right. exists u. split; [apply elem_of_app; tauto | exact Hc].
      + right. exists u. split; [apply elem_of_app; tauto | exact Hc].
    - intros [H | [u [Hu Hc]]].
      + left. left. congruence.
      + apply elem_of_app in Hu. destruct Hu as [Hu | Hu].
        * left. right. right. exists u. tauto.
        * right. exists u. tauto. }
  destruct pre as [| p pre'].
  - destruct post as [| q post'].
    + simpl. split.
      * intros H. left. tauto.
      * intros [(_ & _ & H) | [H _]]; [exact H | congruence].
    + unfold mask_for. rewrite Hgen. split.
      * intros H. right. split; [discriminate | exact H].
      * intros [(_ & H & _) | [_ H]]; [discriminate H | exact H].
  - unfold mask_for. rewrite Hgen. split.
    + intros H. right. split; [discriminate | exact H].
    + intros [(H & _) | [_ H]]; [discriminate H | exact H].
Qed.

Lemma cores_for_targets_covered_returns hardware_concurrency this_pu targets :
  Exists (fun t => test (get_device t) this_pu = true) targets ->
  exists mask,
    cores_for_targets hardware_concurrency this_pu targets = returns mask
    /\ test mask this_pu = true.
Proof.
  intros Hex.
  destruct (first_covering_target this_pu targets Hex)
    as (pre & t & post & -> & Hpre & Ht).
  eexists. split; [apply cores_for_targets_covered; assumption |].
  apply test_mask_for; [exact Ht |].
  destruct pre as [| p pre'], post as [| q post'];
    first [left; tauto | right; split; [discriminate | left; reflexivity]].
Qed.

Lemma cores_for_targets_returns_covered hardware_concurrency this_pu targets
    mask :
  cores_for_targets hardware_concurrency this_pu targets = returns mask ->
  Exists (fun t => test (get_device t) this_pu = true) targets
  /\ test mask this_pu = true.
Proof.
  intros Hmask.
  destruct (covered_or_not this_pu targets) as [H | H].
  - split; [exact H |].
    destruct (cores_for_targets_covered_returns hardware_concurrency
                this_pu targets H) as (mask' & Hmask' & Htest).
    congruence.
  - rewrite (cores_for_targets_not_covered _ _ _ H) in Hmask.
    discriminate Hmask.
Qed.

(** X1: [cores_for_targets] answers with a mask exactly when the caller's
    core lies in the mask of some target, whatever the number of targets;
    and the mask it answers with always holds the caller's core. *)
Theorem cores_for_targets_returns_iff_covered
    (hardware_concurrency this_pu : N) (targets : list target) :
  ((exists mask,
       cores_for_targets hardware_concurrency this_pu targets = returns mask)
   <-> Exists (fun t => test (get_device t) this_pu = true) targets)
  /\ forall mask,
       cores_for_targets hardware_concurrency this_pu targets = returns mask ->
       test mask this_pu = true.
Proof.
  split.
  - split.
    + intros [mask Hmask].
      apply (cores_for_targets_returns_covered _ _ _ _ Hmask).
    + intros Hex.
      destruct (cores_for_targets_covered_returns hardware_concurrency
                  this_pu targets Hex) as (mask & Hmask & _).
      eauto.
  - intros mask Hmask.
    apply (cores_for_targets_returns_covered _ _ _ _ Hmask).
Qed.

Lemma cores_for_targets_returns_inv hardware_concurrency this_pu targets mask :
  cores_for_targets hardware_concurrency this_pu targets = returns mask ->
  exists pre t post,
    targets = pre ++ t :: post
    /\ Forall (fun u => test (get_device u) this_pu = false) pre
    /\ test (get_device t) this_pu = true
    /\ mask = mask_for hardware_concurrency this_pu pre t post.
Proof.
  intros Hmask.
  destruct (covered_or_not this_pu targets) as [H | H].
  - destruct (first_covering_target this_pu targets H)
      as (pre & t & post & -> & Hpre & Ht).
    exists pre, t, post. repeat split; try assumption.
    rewrite (cores_for_targets_covered _ _ _ _ _ Hpre Ht) in Hmask.
    congruence.
  - rewrite (cores_for_targets_not_covered _ _ _ H) in Hmask.
    discriminate Hmask.
Qed.

(** X2: when no target has an empty mask, every core of the mask that
    [cores_for_targets] answers with is a core of one of the targets: the
    top-level executor is never placed outside the given targets. *)
Theorem representative_mask_within_targets
    (hardware_concurrency this_pu : N) (targets : list target)
    (mask : mask_type) (c : N) :
  Forall (fun t => get_device t <> 0%N) targets ->
  cores_for_targets hardware_concurrency this_pu targets = returns mask ->
  test mask c = true ->
  exists u, u ∈ targets /\ test (get_device u) c = true.
Proof.
  intros Hne Hmask Hc.
  destruct (cores_for_targets_returns_inv _ _ _ _ Hmask)
    as (pre & t & post & -> & Hpre & Ht & ->).
  apply (test_mask_for _ _ _ _ _ Ht) in Hc.
  destruct Hc as [(_ & _ & Hc) | [_ [-> | (u & Hu & ->)]]].
  - exists t. split; [| exact Hc]. apply elem_of_app. right. left.
  - exists t. split; [| exact Ht]. apply elem_of_app. right. left.
  - assert (Hin : u ∈ pre ++ t :: post).
    { apply elem_of_app in Hu. apply elem_of_app.
      destruct Hu as [Hu | Hu]; [left; exact Hu | right; right; exact Hu]. }
    exists u. split; [exact Hin |].
    rewrite Forall_forall in Hne.
    apply (find_first_lowest (get_device u)).
    apply Hne. exact Hin.
Qed.

Lemma representative_mask_within_targets_witness :
  Forall (fun t => get_device t <> 0%N) [Target 3%N; Target 12%N]
  /\ cores_for_targets 4%N 1%N [Target 3%N; Target 12%N] = returns 6%N
  /\ test 6%N 2%N = true
  /\ exists u, u ∈ [Target 3%N; Target 12%N]
               /\ test (get_device u) 2%N = true.
Proof.
  assert (Hne : Forall (fun t => get_device t <> 0%N)
                  [Target 3%N; Target 12%N])
    by (repeat constructor; discriminate).
  assert (Hmask : cores_for_targets 4%N 1%N [Target 3%N; Target 12%N]
                  = returns 6%N) by reflexivity.
  assert (Hc : test 6%N 2%N = true) by reflexivity.
  split; [exact Hne |]. split; [exact Hmask |]. split; [exact Hc |].
  exact (representative_mask_within_targets 4%N 1%N
           [Target 3%N; Target 12%N] 6%N 2%N Hne Hmask Hc).
Defined.

(** No core belongs to two targets of the list. *)
Definition pairwise_disjoint (targets : list target) : Prop :=
  forall (i j : nat) (u v : target),
    i <> j -> targets !! i = Some u -> targets !! j = Some v ->
    N.land (get_device u) (get_device v) = 0%N.

Lemma disjoint_masks_share_no_core (a b : mask_type) (c : N) :
  N.land a b = 0%N -> test a c = true -> test b c = true -> False.
Proof.
  unfold test. intros Hland Ha Hb.
  assert (H : N.testbit (N.land a b) c = true)
    by (rewrite N.land_spec, Ha, Hb; reflexivity).
  rewrite Hland, N.bits_0 in H. discriminate H.
Qed.

Lemma lookup_around (pre post : list target) (t u : target) (i : nat) :
  (pre ++ t :: post) !! i = Some u ->
  (i = length pre /\ u = t) \/ (i <> length pre /\ u ∈ pre ++ post).
Proof.
  intros H. destruct (Nat.lt_trichotomy i (length pre)) as [Hlt | [-> | Hgt]].
  - right. split; [lia |]. rewrite lookup_app_l in H by exact Hlt.
    apply elem_of_app. left. apply list_elem_of_lookup. eauto.
  - left. split; [reflexivity |].
    rewrite list_lookup_middle in H by reflexivity. congruence.
  - right. split; [lia |]. rewrite lookup_app_r in H by lia.
    destruct (i - length pre)%nat as [| k] eqn:E; [lia |]. simpl in H.
    apply elem_of_app. right. apply list_elem_of_lookup. eauto.
Qed.

Lemma elem_around (pre post : list target) (t v : target) :
  v ∈ pre ++ post ->
  exists j, j <> length pre /\ (pre ++ t :: post) !! j = Some v.
Proof.
  intros H. apply elem_of_app in H. destruct H as [H | H].
  - apply list_elem_of_lookup in H. destruct H as [j Hj].
    pose proof (lookup_lt_Some _ _ _ Hj) as Hlt.
    exists j. split; [lia |]. rewrite lookup_app_l by exact Hlt. exact Hj.
  - apply list_elem_of_lookup in H. destruct H as [j Hj].
    exists (length pre + S j)%nat. split; [lia |].
    rewrite lookup_app_r by lia.
    replace (length pre + S j - length pre)%nat with (S j) by lia.
    exact Hj.
Qed.

(** X3: for more than one target, with masks that are not empty and share
    no core, every target has exactly one of its cores in the mask that
    [cores_for_targets] answers with. *)
Theorem one_core_per_disjoint_target
    (hardware_concurrency this_pu : N) (targets : list target)
    (mask : mask_type) (i : nat) (u : target) :
  (1 < length targets)%nat ->
  Forall (fun t => get_device t <> 0%N) targets ->
  pairwise_disjoint targets ->
  cores_for_targets hardware_concurrency this_pu targets = returns mask ->
  targets !! i = Some u ->
  exists c : N,
    (test mask c = true /\ test (get_device u) c = true)
    /\ forall c' : N,
         test mask c' = true -> test (get_device u) c' = true -> c' = c.
Proof.
  intros Hlen Hne Hdis Hmask Hu.
  destruct (cores_for_targets_returns_inv _ _ _ _ Hmask)
    as (pre & t & post & -> & Hpre & Ht & ->).
  assert (Hpp : pre ++ post <> []).
  { intros E. apply app_eq_nil in E. destruct E as [-> ->].
    simpl in Hlen. lia. }
  assert (Hbits : forall c : N,
    test (mask_for hardware_concurrency this_pu pre t post) c = true
    <-> c = this_pu
        \/ exists v, v ∈ pre ++ post /\ c = find_first (get_device v)).
  { intros c. rewrite (test_mask_for _ _ _ _ _ Ht). split.
    - intros [(E1 & E2 & _) | [_ H]]; [| exact H].
      exfalso. apply Hpp. rewrite E1, E2. reflexivity.
    - intros H. right. split; [exact Hpp | exact H]. }
  assert (Hlow : forall v, v ∈ pre ++ t :: post ->
                   test (get_device v) (find_first (get_device v)) = true).
  { intros v Hv. rewrite Forall_forall in Hne.
    apply (find_first_lowest (get_device v)).
    apply Hne. exact Hv. }
  assert (Ht_at : (pre ++ t :: post) !! length pre = Some t)
    by (apply list_lookup_middle; reflexivity).
  assert (Huniq : forall c' : N,
    test (mask_for hardware_concurrency this_pu pre t post) c' = true ->
    test (get_device u) c' = true ->
    c' = if decide (i = length pre) then this_pu
         else find_first (get_device u)).
  { intros c' Hc' Hin. apply Hbits in Hc'.
    destruct Hc' as [-> | (v & Hv & ->)].
    - destruct (decide (i = length pre)) as [_ | Hi]; [reflexivity |].
      exfalso.
      apply (disjoint_masks_share_no_core (get_device u) (get_device t)
               this_pu); [| exact Hin | exact Ht].
      apply (Hdis i (length pre)); assumption.
    - destruct (elem_around pre post t v Hv) as (j & Hj & Hvj).
      assert (Hvin : v ∈ pre ++ t :: post)
        by (apply list_elem_of_lookup; eauto).
      destruct (decide (i = j)) as [-> | Hij].
      + assert (u = v) by congruence. subst v.
        rewrite decide_False by exact Hj. reflexivity.
      + exfalso.
        apply (disjoint_masks_share_no_core (get_device u) (get_device v)
                 (find_first (get_device v)));
          [| exact Hin | apply Hlow; exact Hvin].
        apply (Hdis i j); assumption. }
  exists (if decide (i = length pre) then this_pu
          else find_first (get_device u)).
  split; [| exact Huniq]. split.
  - apply Hbits. destruct (lookup_around pre post t u i Hu)
      as [[-> ->] | [Hi Hin]].
    + rewrite decide_True by reflexivity. left. reflexivity.
    + rewrite decide_False by exact Hi. right. exists u. tauto.
  - destruct (lookup_around pre post t u i Hu) as [[-> ->] | [Hi Hin]].
    + rewrite decide_True by reflexivity. exact Ht.
    + rewrite decide_False by exact Hi. apply Hlow.
      apply list_elem_of_lookup. eauto.
Qed.

Lemma one_core_per_disjoint_target_witness :
  exists c : N,
    (test 6%N c = true /\ test 12%N c = true)
    /\ forall c' : N, test 6%N c' = true -> test 12%N c' = true -> c' = c.
Proof.
  refine (one_core_per_disjoint_target 4%N 1%N [Target 3%N; Target 12%N]
            6%N 1%nat (Target 12%N) _ _ _ _ _).
  - simpl. lia.
  - repeat constructor; discriminate.
  - intros i j u v Hij Hi Hj.
    destruct i as [| [| i]], j as [| [| j]]; simpl in Hi, Hj;
      try discriminate; try congruence;
      injection Hi as <-; injection Hj as <-; reflexivity.
  - reflexivity.
  - reflexivity.
Defined.

(** *** Construction on a covered caller *)

Section Construction.
Context {thread_priority thread_stacksize : Type}.
Local Abbreviation fj_executor :=
  (fork_join_executor thread_priority thread_stacksize).
Local Abbreviation bfj_executor :=
  (block_fork_join_executor thread_priority thread_stacksize).

Definition initialised (sub : fj_executor) : Prop := sub <> no_init.

(** What the constructor builds once [cores_for_targets] has answered. *)
Lemma constructor_from_mask (hardware_concurrency this_pu : N)
    (targets : list target) (priority : thread_priority)
    (stacksize : thread_stacksize) (schedule : loop_schedule)
    (yield_delay : Z) (mask : mask_type) :
  cores_for_targets hardware_concurrency this_pu targets = returns mask ->
  make_block_fork_join_executor hardware_concurrency this_pu targets
    priority stacksize schedule yield_delay
  = returns
      {| exec_ :=
           make_fork_join_executor mask priority stacksize
             (if (length targets =? 1)%nat then schedule else static_)
             yield_delay;
         block_execs_ :=
           if (1 <? length targets)%nat
           then map (fun t => make_fork_join_executor (get_device t) priority
                                stacksize schedule yield_delay) targets
           else [] |}.
Proof.
  intros Hmask. unfold make_block_fork_join_executor. rewrite Hmask.
  destruct (1 <? length targets)%nat; [| reflexivity].
  rewrite init_prefix by lia.
  rewrite take_ge, Nat.sub_diag, app_nil_r by lia. reflexivity.
Qed.

(** X4: the constructor returns an executor exactly when the caller's core
    lies in some target.  The executor it returns has its top-level
    executor on a mask that holds the caller's core, and either no
    sub-executor (one target) or one sub-executor per target, none of them
    left uninitialised. *)
Theorem constructor_returns_iff_covered
    (hardware_concurrency this_pu : N) (targets : list target)
    (priority : thread_priority) (stacksize : thread_stacksize)
    (schedule : loop_schedule) (yield_delay : Z) :
  ((exists self : bfj_executor,
       make_block_fork_join_executor hardware_concurrency this_pu targets
         priority stacksize schedule yield_delay = returns self)
   <-> Exists (fun t => test (get_device t) this_pu = true) targets)
  /\ forall self : bfj_executor,
       make_block_fork_join_executor hardware_concurrency this_pu targets
         priority stacksize schedule yield_delay = returns self ->
       (exists mask,
           mask_of (exec_ self) = Some mask /\ test mask this_pu = true)
       /\ length (block_execs_ self)
          = (if (1 <? length targets)%nat then length targets else 0%nat)
       /\ Forall initialised (block_execs_ self).
Proof.
  assert (Hinv : forall self : bfj_executor,
    make_block_fork_join_executor hardware_concurrency this_pu targets
      priority stacksize schedule yield_delay = returns self ->
    exists mask,
      cores_for_targets hardware_concurrency this_pu targets = returns mask).
  { intros self. unfold make_block_fork_join_executor.
    destruct (cores_for_targets hardware_concurrency this_pu targets)
      as [mask | e]; [eauto | discriminate]. }
  split.
  - split.
    + intros [self Hself]. destruct (Hinv self Hself) as [mask Hmask].
      apply (cores_for_targets_returns_covered _ _ _ _ Hmask).
    + intros Hex.
      destruct (cores_for_targets_covered_returns hardware_concurrency
                  this_pu targets Hex) as (mask & Hmask & _).
      eexists. apply constructor_from_mask. exact Hmask.
  - intros self Hself. destruct (Hinv self Hself) as [mask Hmask].
    rewrite (constructor_from_mask _ _ _ priority stacksize schedule
               yield_delay mask Hmask) in Hself.
    injection Hself as <-. cbn [exec_ block_execs_ mask_of].
    split.
    { exists mask. split; [reflexivity |].
      apply (cores_for_targets_returns_covered _ _ _ _ Hmask). }
    destruct (1 <? length targets)%nat.
    + split; [apply length_map |].
      apply Forall_forall. intros sub Hsub.
      apply list_elem_of_In, in_map_iff in Hsub.
      destruct Hsub as (t & <- & _). discriminate.
    + split; [reflexivity | constructor].
Qed.

(** X5: with exactly one target that holds the caller's core there is no
    hierarchy: the top-level executor runs on the target's whole mask with
    the schedule that was asked for, and [bulk_sync_execute] hands every
    shape, of whatever length, to it unchanged. *)
Theorem single_target_forwards
    (hardware_concurrency this_pu : N) (t : target)
    (priority : thread_priority) (stacksize : thread_stacksize)
    (schedule : loop_schedule) (yield_delay : Z) :
  test (get_device t) this_pu = true ->
  exists self : bfj_executor,
    make_block_fork_join_executor hardware_concurrency this_pu [t]
      priority stacksize schedule yield_delay = returns self
    /\ exec_ self
       = make_fork_join_executor (get_device t) priority stacksize schedule
           yield_delay
    /\ block_execs_ self = []
    /\ forall (W Ix : Type) (f : Ix -> M W unit) (shape : list Ix) (w : W),
         bulk_sync_execute self f shape w
         = fork_join_bulk_sync_execute (exec_ self) f shape w.
Proof.
  intros Ht. eexists. split.
  - apply constructor_from_mask.
    apply (cores_for_targets_covered hardware_concurrency this_pu [] t []);
      [constructor | exact Ht].
  - cbn. split; [reflexivity |]. split; [reflexivity |].
    intros W Ix f shape w. reflexivity.
Qed.

(** *** Bulk execution: edge cases *)

Lemma bulk_no_effect {W Ix} (e : fj_executor) (g : Ix -> M W unit)
    (shape : list Ix) (w : W) :
  (forall x, g x w = (returns tt, w)) ->
  fork_join_bulk_sync_execute e g shape w = (returns tt, w).
Proof.
  intros Hg. induction shape as [| x rest IH].
  - reflexivity.
  - simpl. unfold Hpx.bind. rewrite Hg. exact IH.
Qed.

(** X6: on an empty shape [bulk_sync_execute] never calls the function and
    returns with the world as it was, whatever the number of
    sub-executors. *)
Theorem bulk_sync_execute_empty_shape {W Ix} (self : bfj_executor)
    (f : Ix -> M W unit) (w : W) :
  bulk_sync_execute self f [] w = (returns tt, w).
Proof.
  unfold bulk_sync_execute.
  destruct (Z.of_nat (length (block_execs_ self)) =? 0)%Z.
  - reflexivity.
  - apply bulk_no_effect. intros index.
    unfold outer_func, make_iterator_range.
    rewrite drop_nil, take_nil. reflexivity.
Qed.

End Construction.

Lemma single_target_forwards_witness :
  test (get_device (Target 3%N)) 1%N = true
  /\ exists self : block_fork_join_executor unit unit,
       make_block_fork_join_executor 4%N 1%N [Target 3%N] tt tt dynamic
         1000000 = returns self
       /\ block_execs_ self = [].
Proof.
  assert (Ht : test (get_device (Target 3%N)) 1%N = true) by reflexivity.
  split; [exact Ht |].
  destruct (single_target_forwards 4%N 1%N (Target 3%N) tt tt dynamic
              1000000 Ht) as (self & Hself & _ & Hsubs & _).
  exists self. split; [exact Hself | exact Hsubs].
Defined.

(** *** The partition: balance *)

(** X8: without wrap-around in the bounds, the lengths of any two parts
    differ by at most one. *)
Theorem parts_balanced (size N i j : Z) :
  (1 <= size)%Z -> (N * size < SizeT.modulus)%Z ->
  (0 <= i < N)%Z -> (0 <= j < N)%Z ->
  (- 1
   <= (part_end i size N - part_begin i size N)
      - (part_end j size N - part_begin j size N)
   <= 1)%Z.
Proof.
  intros Hs Hw Hi Hj.
  rewrite !part_end_exact, !part_begin_exact by nia.
  pose proof (floor_step i size N ltac:(lia) ltac:(lia) ltac:(lia)).
  pose proof (floor_step j size N ltac:(lia) ltac:(lia) ltac:(lia)).
  lia.
Qed.

Lemma parts_balanced_witness :
  (- 1
   <= (part_end 0 10 4 - part_begin 0 10 4)
      - (part_end 1 10 4 - part_begin 1 10 4)
   <= 1)%Z.
Proof.
  apply (parts_balanced 10 4 0 1); [lia | reflexivity | lia | lia].
Defined.

End BlockForkJoinMore.

(** ** all_reduce: the finalizer, the step function and the base name *)

Module AllReduceMore.
Import Hpx AllReduce.

Section Finalizer.
Context {T : Type}.

(** The two ways the finalizer returns. *)
Lemma finalizer_returns_inv (op : T -> T -> T) (st st' : comm_state)
    (answer : T) (calls calls' : nat) :
  finalizer op st calls = (returns (answer, st'), calls') ->
  exists first others,
    data st = first :: others
    /\ ((data_available st = false /\ others <> []
         /\ answer = fold_left op others first
         /\ st' = {| data := answer :: others; data_available := true |}
         /\ calls' = (calls + length others)%nat)
        \/ ((data_available st = true \/ others = [])
            /\ answer = first /\ st' = st /\ calls' = calls)).
Proof.
  intros H. destruct (data st) as [| first others] eqn:Hd.
  - unfold finalizer in H. rewrite Hd in H. discriminate H.
  - exists first, others. split; [reflexivity |].
    destruct (data_available st) eqn:Hf.
    + right. rewrite (finalizer_idle op st first others calls Hd) in H
        by (left; exact Hf).
      injection H as <- <- <-. tauto.
    + destruct others as [| o os].
      * right. rewrite (finalizer_idle op st first [] calls Hd) in H
          by (right; reflexivity).
        injection H as <- <- <-. tauto.
      * left. rewrite (finalizer_fold op st first (o :: os) calls Hd) in H
          by (congruence || exact Hf).
        injection H as <- <- <-. repeat split; congruence.
Qed.

(** X11: a finalizer that returns has written at most slot 0: the number
    of slots is unchanged, the slots of the sites 1, 2, ... still hold
    their contributions, slot 0 holds the answer, and the function was
    called at most once per other slot. *)
Theorem finalizer_writes_slot_zero_only (op : T -> T -> T)
    (st st' : comm_state) (answer : T) (calls calls' : nat) :
  finalizer op st calls = (returns (answer, st'), calls') ->
  length (data st') = length (data st)
  /\ data st' !! 0%nat = Some answer
  /\ (forall i : nat, (0 < i)%nat -> data st' !! i = data st !! i)
  /\ (calls <= calls' <= calls + (length (data st) - 1))%nat.
Proof.
  intros H.
  destruct (finalizer_returns_inv op st st' answer calls calls' H)
    as (first & others & Hd & [(Hf & Hne & -> & -> & ->) | (Hi & -> & -> & ->)]).
  - rewrite Hd. simpl. repeat split; try lia.
    intros [| i] Hi; [lia | reflexivity].
  - rewrite Hd. simpl. repeat split; lia.
Qed.

(** X12: once a finalizer has returned, every later finalizer on the
    buffer it left, with whatever reduction function, returns the same
    answer, calls its function not at all and leaves the buffer as it
    is. *)
Theorem finalizer_settles (op op' : T -> T -> T) (st st' : comm_state)
    (answer : T) (calls calls' n : nat) :
  finalizer op st calls = (returns (answer, st'), calls') ->
  finalizer op' st' n = (returns (answer, st'), n).
Proof.
  intros H.
  destruct (finalizer_returns_inv op st st' answer calls calls' H)
    as (first & others & Hd & [(Hf & Hne & -> & -> & ->) | (Hi & -> & -> & ->)]).
  - apply (finalizer_idle op' _ (fold_left op others first) others);
      [reflexivity | left; reflexivity].
  - apply (finalizer_idle op' st first others n Hd Hi).
Qed.

(** The calls [(which, t)] of [arrivals] run their step functions in
    order. *)
Definition apply_steps (arrivals : list (nat * T)) (st : comm_state)
  : comm_state :=
  fold_left (fun s a => step (fst a) (snd a) s) arrivals st.

Lemma steps_commute (which1 which2 : nat) (t1 t2 : T) (st : comm_state) :
  which1 <> which2 ->
  step which1 t1 (step which2 t2 st) = step which2 t2 (step which1 t1 st).
Proof.
  intros Hne. unfold step. simpl. f_equal.
  apply list_insert_insert_ne. exact Hne.
Qed.

(** X13: when every site calls once, the buffer after the step functions
    does not depend on the order in which the calls arrive. *)
Theorem steps_order_irrelevant (arrivals arrivals' : list (nat * T))
    (st : comm_state) :
  arrivals ≡ₚ arrivals' ->
  NoDup (fst <$> arrivals) ->
  apply_steps arrivals st = apply_steps arrivals' st.
Proof.
  intros Hperm. revert st.
  induction Hperm as [| a l l' _ IH | a b l | l l' l'' H1 IH1 H2 IH2];
    intros st Hnd.
  - reflexivity.
  - cbn. apply IH. rewrite fmap_cons in Hnd.
    apply NoDup_cons in Hnd. tauto.
  - cbn. f_equal. apply steps_commute.
    rewrite !fmap_cons in Hnd. apply NoDup_cons in Hnd.
    destruct Hnd as [Hnot _]. intros E. apply Hnot. rewrite E. left.
  - rewrite IH1 by exact Hnd. apply IH2.
    rewrite <- H1. exact Hnd.
Qed.

End Finalizer.

Definition three_slots : @comm_state Z :=
  {| data := [1; 2; 3]%Z; data_available := false |}.

Lemma finalizer_writes_slot_zero_only_witness :
  finalizer Z.add three_slots 0
  = (returns (6%Z, {| data := [6; 2; 3]%Z; data_available := true |}), 2%nat)
  /\ length [6; 2; 3]%Z = length (data three_slots).
Proof.
  assert (H : finalizer Z.add three_slots 0
              = (returns (6%Z, {| data := [6; 2; 3]%Z;
                                  data_available := true |}), 2%nat))
    by reflexivity.
  split; [exact H |].
  exact (proj1 (finalizer_writes_slot_zero_only Z.add three_slots _ _ _ _ H)).
Defined.

Lemma finalizer_settles_witness :
  finalizer Z.add three_slots 0
  = (returns (6%Z, {| data := [6; 2; 3]%Z; data_available := true |}), 2%nat)
  /\ finalizer Z.mul {| data := [6; 2; 3]%Z; data_available := true |} 2
     = (returns (6%Z, {| data := [6; 2; 3]%Z; data_available := true |}),
        2%nat).
Proof.
  assert (H : finalizer Z.add three_slots 0
              = (returns (6%Z, {| data := [6; 2; 3]%Z;
                                  data_available := true |}), 2%nat))
    by reflexivity.
  split; [exact H |].
  exact (finalizer_settles Z.add Z.mul three_slots _ _ _ _ 2%nat H).
Defined.

Lemma steps_order_irrelevant_witness :
  apply_steps [(0%nat, 7%Z); (2%nat, 9%Z)] three_slots
  = apply_steps [(2%nat, 9%Z); (0%nat, 7%Z)] three_slots.
Proof.
  apply steps_order_irrelevant.
  - apply perm_swap.
  - apply (bool_decide_unpack _). vm_compute. exact I.
Defined.

Section BaseName.
Context {T communicator : Type}.
Variable agas_get_locality_id : Z.
Variable create_communicator : string -> Z -> Z -> Z -> Z -> communicator.
Variable then_sync :
  communicator -> (communicator -> M (list event) (future T)) ->
  M (list event) (future T).
Variable async_action :
  communicator -> Z -> Z -> T -> (T -> T -> T) -> future T.

(** X14: the overload that takes a base name uses its generation only to
    create the communicator.  For every generation, zero included, it
    creates the communicator, resolves the site, and hands [then] the
    continuation that launches the action with the default generation; it
    never answers with the zero-generation error itself. *)
Theorem all_reduce_basename_launches_default_generation
    (basename : string) (local_result : T) (op : T -> T -> T)
    (num_sites this_site generation root_site : Z) (trace : list event) :
  all_reduce_basename agas_get_locality_id create_communicator then_sync
    async_action basename local_result op num_sites this_site generation
    root_site trace
  = then_sync
      (create_communicator basename num_sites this_site generation root_site)
      (all_reduce_data async_action local_result op not_given
         (if (this_site =? not_given)%Z then agas_get_locality_id
          else this_site))
      (trace
       ++ create_communicator_called basename num_sites this_site generation
            root_site
          :: (if (this_site =? not_given)%Z then [get_locality_id_called]
              else [])).
Proof.
  unfold all_reduce_basename, all_reduce, Hpx.bind, emit, ret.
  change (not_given =? 0)%Z with false.
  destruct (this_site =? not_given)%Z.
  - rewrite <- app_assoc. reflexivity.
  - reflexivity.
Qed.

End BaseName.

End AllReduceMore.
